(** * Signalling server of webrtc-node-app ([server.js])

    A shallow embedding of the socket handlers registered in
    [io.on('connection', ...)] and of the port selection at the end of
    the file.  The handlers run inside a small state-and-output monad:
    the state is the room table kept by the socket library, the output
    is the list of messages as the clients receive them. *)

From stdpp Require Import base option list gmap strings.
From Stdlib Require Import ZArith.

(** ** JavaScript values *)

(** The values that travel in event payloads: what [JSON.parse] yields,
    and [undefined] for an argument or a property that is missing.  A
    number stands for an integer that a double holds exactly.  An object
    is the list of its properties; each key occurs once and a lookup
    takes the first binding. *)
#[warnings="-register-all"]
Inductive JsVal : Type :=
  | JUndefined
  | JNull
  | JBool (b : bool)
  | JNum (n : Z)
  | JStr (s : string)
  | JArr (items : list JsVal)
  | JObj (fields : list (string * JsVal)).

(** [ToBoolean]: what [a || b] tests. *)
Definition truthy (v : JsVal) : bool :=
  match v with
  | JUndefined | JNull => false
  | JBool b => b
  | JNum n => negb (n =? 0)%Z
  | JStr s => negb (String.eqb s "")
  | JArr _ | JObj _ => true
  end.

(** [a || b] *)
Definition js_or (a b : JsVal) : JsVal := if truthy a then a else b.

Fixpoint assoc (k : string) (fields : list (string * JsVal)) : JsVal :=
  match fields with
  | [] => JUndefined
  | (k', v) :: rest => if String.eqb k k' then v else assoc k rest
  end.

(** Whether an object has an own property of that name. *)
Fixpoint has_key (k : string) (fields : list (string * JsVal)) : bool :=
  match fields with
  | [] => false
  | (k', _) :: rest => String.eqb k k' || has_key k rest
  end.

(** Whether [ToString], the conversion a template literal applies, throws
    a [TypeError].  A parsed object converts through
    [Object.prototype.toString] unless it has an own property [toString],
    which cannot be a function and leaves the conversion without a
    result; an array joins the conversions of its elements; the other
    values always convert. *)
Fixpoint str_throws (v : JsVal) : bool :=
  match v with
  | JObj fields => has_key "toString" fields
  | JArr items => existsb str_throws items
  | _ => false
  end.

(** What a value becomes on its way to a client: the arguments of an
    emit are written with [JSON.stringify] and parsed again on the other
    side, which turns [undefined] into [null] (inside an array too) and
    leaves out the properties of an object that are [undefined]. *)
Fixpoint wire (v : JsVal) : JsVal :=
  match v with
  | JUndefined => JNull
  | JArr items => JArr (map wire items)
  | JObj fields =>
      JObj ((fix wire_fields (fs : list (string * JsVal)) :=
               match fs with
               | [] => []
               | (k, JUndefined) :: rest => wire_fields rest
               | (k, x) :: rest => (k, wire x) :: wire_fields rest
               end) fields)
  | _ => v
  end.

(** The values that come off the wire: no [undefined] anywhere. *)
Fixpoint is_json (v : JsVal) : bool :=
  match v with
  | JUndefined => false
  | JArr items => forallb is_json items
  | JObj fields =>
      (fix json_fields (fs : list (string * JsVal)) :=
         match fs with
         | [] => true
         | (_, x) :: rest => is_json x && json_fields rest
         end) fields
  | _ => true
  end.

(** Induction on values, through the items of an array and the fields of
    an object. *)
Section JsVal_induction.
Variable P : JsVal → Prop.
Hypothesis P_undefined : P JUndefined.
Hypothesis P_null : P JNull.
Hypothesis P_bool : ∀ b, P (JBool b).
Hypothesis P_num : ∀ n, P (JNum n).
Hypothesis P_str : ∀ s, P (JStr s).
Hypothesis P_arr : ∀ items, Forall P items → P (JArr items).
Hypothesis P_obj : ∀ fields, Forall (λ kv, P kv.2) fields → P (JObj fields).

Fixpoint JsVal_nested_ind (v : JsVal) : P v :=
  match v with
  | JUndefined => P_undefined
  | JNull => P_null
  | JBool b => P_bool b
  | JNum n => P_num n
  | JStr s => P_str s
  | JArr items =>
      P_arr items
        ((fix go (l : list JsVal) : Forall P l :=
            match l with
            | [] => @List.Forall_nil _ P
            | x :: rest => @List.Forall_cons _ P x rest (JsVal_nested_ind x) (go rest)
            end) items)
  | JObj fields =>
      P_obj fields
        ((fix go (l : list (string * JsVal)) : Forall (λ kv, P kv.2) l :=
            match l with
            | [] => @List.Forall_nil _ _
            | (k, x) :: rest =>
                @List.Forall_cons _ (λ kv, P kv.2) (k, x) rest
                  (JsVal_nested_ind x) (go rest)
            end) fields)
  end.
End JsVal_induction.

(** ** Room table *)

(** The key of a room in the library's [Map].  A primitive value is a key
    by its value, so the number 42 and the string "42" name two rooms.
    An object or an array is a key by identity: each payload is parsed
    afresh, so such a key is new, the [n]-th object ever used as a room
    key, and no later payload names it. *)
Inductive Key : Type :=
  | KUndefined
  | KNull
  | KBool (b : bool)
  | KNum (n : Z)
  | KStr (s : string)
  | KRef (n : nat).

#[global] Instance Key_eq_dec : EqDecision Key.
Proof. solve_decision. Defined.

#[global] Instance Key_countable : Countable Key.
Proof.
  refine (inj_countable'
    (λ k, match k with
          | KUndefined => inl (inl ())
          | KNull => inl (inr ())
          | KBool b => inr (inl b)
          | KNum n => inr (inr (inl n))
          | KStr s => inr (inr (inr (inl s)))
          | KRef n => inr (inr (inr (inr n)))
          end)
    (λ x, match x with
          | inl (inl _) => KUndefined
          | inl (inr _) => KNull
          | inr (inl b) => KBool b
          | inr (inr (inl n)) => KNum n
          | inr (inr (inr (inl s))) => KStr s
          | inr (inr (inr (inr n))) => KRef n
          end) _).
  by intros [].
Defined.

(** The key a value is when it is looked up: none for an object or an
    array, which no entry of the table has as its key. *)
Definition key_of (v : JsVal) : option Key :=
  match v with
  | JUndefined => Some KUndefined
  | JNull => Some KNull
  | JBool b => Some (KBool b)
  | JNum n => Some (KNum n)
  | JStr s => Some (KStr s)
  | JArr _ | JObj _ => None
  end.

(** The keys under which values are entered in the table, objects and
    arrays getting the next fresh identities. *)
Fixpoint alloc_keys (vs : list JsVal) (next : nat) : list Key * nat :=
  match vs with
  | [] => ([], next)
  | v :: rest =>
      match key_of v with
      | Some k => let '(ks, n) := alloc_keys rest next in (k :: ks, n)
      | None => let '(ks, n) := alloc_keys rest (S next) in (KRef next :: ks, n)
      end
  end.

(** [Array.isArray(x) ? x : [x]] *)
Definition as_list (x : JsVal) : list JsVal :=
  match x with
  | JArr items => items
  | _ => [x]
  end.

(** A JavaScript [Set] keeps its elements in insertion order and never
    holds one twice. *)
Definition set_add `{EqDecision A} (x : A) (s : list A) : list A :=
  if decide (x ∈ s) then s else s ++ [x].

Definition set_delete `{EqDecision A} (x : A) (s : list A) : list A :=
  filter (λ y, y ≠ x) s.

(** Modelled from the spec: the Room Table and the Connection Registry of
    the spec are the two maps of the socket library's in-memory adapter,
    whose code is not part of server.js.  [rooms] is
    [io.sockets.adapter.rooms], from a room key to the ordered set of its
    occupants; [sids] maps a connection to the rooms it is in, and
    [conns] lists the keys of [sids] in the order in which they were
    entered, the order in which that map is walked.  [objects] counts the
    objects used as room keys so far. *)
#[projections(primitive)]
Record Adapter : Type := mkAdapter {
  rooms : gmap Key (list string);
  sids : gmap string (list Key);
  conns : list string;
  objects : nat
}.

Definition empty_adapter : Adapter := mkAdapter ∅ ∅ [] 0.

(** The members of the room with that key; a room that is not in the
    table has none. *)
Definition members (a : Adapter) (k : Key) : list string :=
  default [] (rooms a !! k).

(** The occupants of the room a string names. *)
Definition occupants (a : Adapter) (r : string) : list string :=
  members a (KStr r).

(** Modelled from the spec: the connection is entered in [sids] if it is
    not there yet (the first step of the library's [addAll]). *)
Definition ensure_sid (id : string) (a : Adapter) : Adapter :=
  match sids a !! id with
  | Some _ => a
  | None => mkAdapter (rooms a) (<[id := []]> (sids a)) (conns a ++ [id])
                      (objects a)
  end.

(** Modelled from the spec: one round of the loop of [addAll]: the room
    is recorded for the connection, it is created on first join, and the
    connection is appended to its occupants unless it is one already. *)
Definition add_room (id : string) (room : Key) (a : Adapter) : Adapter :=
  let sids' := <[id := set_add room (default [] (sids a !! id))]> (sids a) in
  let rooms1 := match rooms a !! room with
                | Some _ => rooms a
                | None => <[room := []]> (rooms a)
                end in
  let old := default [] (rooms1 !! room) in
  let rooms2 := if decide (id ∈ old) then rooms1
                else <[room := old ++ [id]]> rooms1 in
  mkAdapter rooms2 sids' (conns a) (objects a).

(** Modelled from the spec: the library's [addAll(id, rooms)], which
    [socket.join] calls with the set of the rooms to enter. *)
Definition addAll (id : string) (keys : list Key) (a : Adapter) : Adapter :=
  foldl (λ acc room, add_room id room acc) (ensure_sid id a) keys.

(** Modelled from the spec: removal of one connection from one room; a
    room whose occupant set becomes empty is deleted from the table. *)
Definition del_room (id : string) (room : Key)
    (rs : gmap Key (list string)) : gmap Key (list string) :=
  match rs !! room with
  | None => rs
  | Some old =>
      let left := set_delete id old in
      if Nat.eqb (length left) 0 then delete room rs
      else <[room := left]> rs
  end.

(** Modelled from the spec: the Lifecycle Reaper.  server.js registers no
    disconnect handler; when a connection ends the socket library removes
    it from every room it is in, deleting the rooms that become empty,
    and forgets the connection. *)
Definition delAll (id : string) (a : Adapter) : Adapter :=
  match sids a !! id with
  | None => a
  | Some rs =>
      mkAdapter (foldr (del_room id) (rooms a) rs) (delete id (sids a))
                (set_delete id (conns a)) (objects a)
  end.

(** ** Messages sent to clients *)

(** A message as its recipient gets it. *)
Record Emit : Type := mkEmit {
  recipient : string;
  event_name : string;
  args : list JsVal
}.

(** ** The handler monad *)

(** A handler either finishes, with a new table and the messages it
    sent, or throws a [TypeError]; nothing in server.js catches it. *)
Inductive Res (A : Type) : Type :=
  | Done (a : A) (st : Adapter) (out : list Emit)
  | TypeError.
Arguments Done {A} a st out.
Arguments TypeError {A}.

Definition M (A : Type) : Type := Adapter → Res A.

#[global] Instance M_ret : MRet M := λ A a st, Done a st [].

#[global] Instance M_bind : MBind M := λ A B f m st,
  match m st with
  | Done a st1 out1 =>
      match f a st1 with
      | Done b st2 out2 => Done b st2 (out1 ++ out2)
      | TypeError => TypeError
      end
  | TypeError => TypeError
  end.

(** [io.sockets.adapter.rooms.get(roomId)] *)
Definition rooms_get (roomId : JsVal) : M (option (list string)) :=
  λ st, Done (k ← key_of roomId; rooms st !! k) st [].

(** The tables after [socket.join(roomId)]: the library enters the
    socket in the room, or in each room of [roomId] when that is an
    array. *)
Definition joined (socket : string) (roomId : JsVal) (st : Adapter) : Adapter :=
  let '(keys, next) := alloc_keys (as_list roomId) (objects st) in
  addAll socket keys (mkAdapter (rooms st) (sids st) (conns st) next).

(** [socket.join(roomId)] *)
Definition socket_join (socket : string) (roomId : JsVal) : M unit :=
  λ st, Done () (joined socket roomId st) [].

(** [socket.emit(name, ...args)]: to the socket itself, nobody else. *)
Definition socket_emit (socket name : string) (payload : list JsVal) : M unit :=
  λ st, Done () st [mkEmit socket name (map wire payload)].

(** The members of the room a value names, when it is looked up. *)
Definition room_members (st : Adapter) (room : JsVal) : list string :=
  match key_of room with
  | Some k => members st k
  | None => []
  end.

(** Modelled from the spec: whom [socket.to(room)] leaves out.  The spec
    has the sender never receive its own message; the library does it by
    leaving out every socket in the room named by the sender's
    identifier, the room of its own that the sender is in from connect
    to disconnect. *)
Definition left_out (st : Adapter) (socket : string) (c : string) : Prop :=
  c = socket ∨ c ∈ occupants st socket.

#[global] Instance left_out_dec st socket c : Decision (left_out st socket c).
Proof. unfold left_out. apply _. Defined.

(** Modelled from the spec: one socket is served unless it is left out
    or has been served already. *)
Definition serve (st : Adapter) (socket : string) (ids : list string)
    (c : string) : list string :=
  if decide (left_out st socket c) then ids else set_add c ids.

(** Modelled from the spec: the sockets [socket.to(room).emit] reaches,
    in order.  [room] is one room or an array of rooms; the members of
    each are taken in turn, in the order in which they joined, those left
    out and those already served being skipped.  With no room at all (an
    empty array) the library walks every connection instead. *)
Definition broadcast_targets (st : Adapter) (socket : string) (room : JsVal)
    : list string :=
  match as_list room with
  | [] => filter (λ c, ¬ left_out st socket c) (conns st)
  | rs => foldl (serve st socket) [] (concat (map (room_members st) rs))
  end.

(** Modelled from the spec: [socket.to(room).emit(name, ...args)], a
    primitive of the socket library. *)
Definition socket_to_emit (socket : string) (room : JsVal) (name : string)
    (payload : list JsVal) : M unit :=
  λ st, Done () st
    (map (λ c, mkEmit c name (map wire payload))
         (broadcast_targets st socket room)).

(** [event.key] for a key that no prototype defines: a property of an
    object, [undefined] when it is missing or when the value is an array
    or a primitive; [None] stands for the [TypeError] that [undefined]
    and [null] raise. *)
Definition get_prop (event : JsVal) (key : string) : option JsVal :=
  match event with
  | JUndefined | JNull => None
  | JObj fields => Some (assoc key fields)
  | _ => Some JUndefined
  end.

Definition prop (event : JsVal) (key : string) : M JsVal :=
  λ st, match get_prop event key with
        | Some v => Done v st []
        | None => TypeError
        end.

(** [console.log(`... ${v} ...`)]: nothing but the conversion of [v] to a
    string, which can throw. *)
Definition console_log (v : JsVal) : M unit :=
  λ st, if str_throws v then TypeError else Done () st [].

(** ** The handlers of server.js *)

(** [socket.on('join', (roomId) => ...)] *)
Definition on_join (socket : string) (roomId : JsVal) : M unit :=
  selectedRoom ← rooms_get roomId;
  let numberOfClients :=
    match selectedRoom with Some s => length s | None => 0 end in
  if Nat.eqb numberOfClients 0 then
    console_log roomId;;
    socket_join socket roomId;;
    socket_emit socket "room_created" [roomId]
  else if Nat.eqb numberOfClients 1 then
    console_log roomId;;
    socket_join socket roomId;;
    socket_emit socket "room_joined" [roomId]
  else
    console_log roomId;;
    socket_emit socket "full_room" [roomId].

(** [socket.on('start_call', (roomId) => ...)] *)
Definition on_start_call (socket : string) (roomId : JsVal) : M unit :=
  console_log roomId;;
  socket_to_emit socket roomId "start_call" [].

(** [socket.on('webrtc_offer', (event) => ...)] *)
Definition on_webrtc_offer (socket : string) (event : JsVal) : M unit :=
  roomId ← prop event "roomId";
  console_log roomId;;
  sdp ← prop event "sdp";
  socket_to_emit socket roomId "webrtc_offer" [sdp].

(** [socket.on('webrtc_answer', (event) => ...)] *)
Definition on_webrtc_answer (socket : string) (event : JsVal) : M unit :=
  roomId ← prop event "roomId";
  console_log roomId;;
  sdp ← prop event "sdp";
  socket_to_emit socket roomId "webrtc_answer" [sdp].

(** [socket.on('webrtc_ice_candidate', (event) => ...)] *)
Definition on_webrtc_ice_candidate (socket : string) (event : JsVal) : M unit :=
  roomId ← prop event "roomId";
  console_log roomId;;
  socket_to_emit socket roomId "webrtc_ice_candidate" [event].

(** Modelled from the spec: a Connection is created when a client
    establishes a session.  As the socket library does before the
    handlers of server.js are registered, the new connection is put in a
    room of its own, named by its identifier. *)
Definition on_connect (socket : string) : M unit :=
  λ st, Done () (addAll socket [KStr socket] st) [].

(** Modelled from the spec: the session ends ([onDisconnect] of the
    spec).  Nothing is sent to anybody. *)
Definition on_disconnect (socket : string) : M unit :=
  λ st, Done () (delAll socket st) [].

(** ** Port selection *)

(** [process.env]: the environment, every value a string. *)
Definition process_env (env : gmap string string) (name : string) : JsVal :=
  match env !! name with
  | Some v => JStr v
  | None => JUndefined
  end.

(** [const port = process.env.PORT || 3000] *)
Definition port (env : gmap string string) : JsVal :=
  js_or (process_env env "PORT") (JNum 3000).

(** ** The server as a transition system *)

(** The four signalling messages a client can ask the server to relay,
    each with the payload it came with. *)
Inductive Relay : Type :=
  | StartCall (roomId : JsVal)
  | WebrtcOffer (event : JsVal)
  | WebrtcAnswer (event : JsVal)
  | WebrtcIceCandidate (event : JsVal).

Definition on_relay (socket : string) (k : Relay) : M unit :=
  match k with
  | StartCall roomId => on_start_call socket roomId
  | WebrtcOffer event => on_webrtc_offer socket event
  | WebrtcAnswer event => on_webrtc_answer socket event
  | WebrtcIceCandidate event => on_webrtc_ice_candidate socket event
  end.

(** The room a relay names: [roomId] itself for [start_call],
    [event.roomId] for the others. *)
Definition relay_room (k : Relay) : option JsVal :=
  match k with
  | StartCall roomId => Some roomId
  | WebrtcOffer event | WebrtcAnswer event | WebrtcIceCandidate event =>
      get_prop event "roomId"
  end.

(** The name of the event the recipients get. *)
Definition relay_name (k : Relay) : string :=
  match k with
  | StartCall _ => "start_call"
  | WebrtcOffer _ => "webrtc_offer"
  | WebrtcAnswer _ => "webrtc_answer"
  | WebrtcIceCandidate _ => "webrtc_ice_candidate"
  end.

(** Whether the handler of a relay throws: the room cannot be read, or
    cannot be written into the log line. *)
Definition relay_throws (k : Relay) : bool :=
  match relay_room k with
  | Some room => str_throws room
  | None => true
  end.

(** What happens on the server: a client connects, one of the five
    events of server.js arrives from a connection, a connection ends. *)
Inductive Input : Type :=
  | InConnect (socket : string)
  | InJoin (socket : string) (roomId : JsVal)
  | InRelay (socket : string) (k : Relay)
  | InDisconnect (socket : string).

Definition handle (i : Input) : M unit :=
  match i with
  | InConnect socket => on_connect socket
  | InJoin socket roomId => on_join socket roomId
  | InRelay socket k => on_relay socket k
  | InDisconnect socket => on_disconnect socket
  end.

(** A connection is live from its connect to its disconnect. *)
Definition connected (st : Adapter) (socket : string) : Prop :=
  is_Some (sids st !! socket).

(** Events arrive from live connections only, and the identifier of a new
    connection is fresh: no live connection has it and no room is named
    by it. *)
Definition enabled (st : Adapter) (i : Input) : Prop :=
  match i with
  | InConnect socket =>
      rooms st !! KStr socket = None ∧ sids st !! socket = None
  | InJoin socket _ | InRelay socket _ | InDisconnect socket =>
      connected st socket
  end.

#[global] Instance enabled_dec st i : Decision (enabled st i).
Proof. destruct i; unfold enabled, connected; apply _. Defined.

(** The states the server can be in: it starts with empty tables and
    handles one input after the other, each to completion. *)
Inductive reachable : Adapter → Prop :=
  | reachable_init : reachable empty_adapter
  | reachable_step st i st' out :
      reachable st → enabled st i → handle i st = Done () st' out →
      reachable st'.

(** An input that is not a join request whose room identifier is an
    array. *)
Definition plain (i : Input) : Prop :=
  match i with
  | InJoin _ (JArr _) => False
  | _ => True
  end.

#[global] Instance plain_dec i : Decision (plain i).
Proof. destruct i as [| ? [] | |]; simpl; apply _. Defined.

(** The states the server reaches when no join request carries an
    array. *)
Inductive reachable_plain : Adapter → Prop :=
  | reachable_plain_init : reachable_plain empty_adapter
  | reachable_plain_step st i st' out :
      reachable_plain st → plain i → enabled st i →
      handle i st = Done () st' out → reachable_plain st'.

(** A run of inputs from a state; [None] when an input is not enabled or
    a handler throws. *)
Fixpoint run (inputs : list Input) (st : Adapter) : option (Adapter * list Emit) :=
  match inputs with
  | [] => Some (st, [])
  | i :: rest =>
      if decide (enabled st i) then
        match handle i st with
        | Done _ st1 out1 =>
            match run rest st1 with
            | Some (st2, out2) => Some (st2, out1 ++ out2)
            | None => None
            end
        | TypeError => None
        end
      else None
  end.

(** A sequence of join requests for the room a string names, handled in
    order. *)
Fixpoint run_joins (sockets : list string) (roomId : string) (st : Adapter)
    : Adapter * list Emit :=
  match sockets with
  | [] => (st, [])
  | socket :: rest =>
      match on_join socket (JStr roomId) st with
      | Done _ st1 out1 =>
          let '(st2, out2) := run_joins rest roomId st1 in (st2, out1 ++ out2)
      | TypeError => (st, [])
      end
  end.

(** The scenario of the spec: three connections ask for room 42 in turn,
    then the second one starts the call. *)
Definition scenario : list Input :=
  [InConnect "c1"; InConnect "c2"; InConnect "c3";
   InJoin "c1" (JStr "42"); InJoin "c2" (JStr "42"); InJoin "c3" (JStr "42");
   InRelay "c2" (StartCall (JStr "42"))].

(** What is left of a room's entry once a connection is taken out of it. *)
Definition del_members (id : string) (o : option (list string))
    : option (list string) :=
  match o with
  | None => None
  | Some old =>
      let left := set_delete id old in
      if Nat.eqb (length left) 0 then None else Some left
  end.

(** The three answers to a join request. *)
Definition verdict (numberOfClients : nat) : string :=
  match numberOfClients with
  | 0 => "room_created"
  | 1 => "room_joined"
  | _ => "full_room"
  end.

(** The recipients of a list of messages, in order of delivery. *)
Definition recipients (out : list Emit) : list string := map recipient out.

(** The state the server is in after a list of inputs, from the start. *)
Definition state_after (inputs : list Input) : Adapter :=
  match run inputs empty_adapter with
  | Some (st, _) => st
  | None => empty_adapter
  end.

(** Two connections, the first of which waits alone in room 42. *)
Definition waiting : list Input :=
  [InConnect "c1"; InConnect "c2"; InJoin "c1" (JStr "42")].

(** One connection asks for two rooms, one after the other. *)
Definition two_rooms : list Input :=
  [InConnect "c"; InJoin "c" (JStr "r1"); InJoin "c" (JStr "r2")].

(** Room 42 is full and a third connection asks for it with the
    identifier wrapped in an array. *)
Definition crowded : list Input :=
  [InConnect "c1"; InConnect "c2"; InConnect "c3";
   InJoin "c1" (JStr "42"); InJoin "c2" (JStr "42");
   InJoin "c3" (JArr [JStr "42"])].

(** The second connection first joins the room named by the identifier
    of the first, then both meet in room 42. *)
Definition eclipsed : list Input :=
  [InConnect "c1"; InConnect "c2"; InJoin "c2" (JStr "c1");
   InJoin "c1" (JStr "42"); InJoin "c2" (JStr "42")].

(** The room table is in order: a room in it has an occupant, lists none
    twice, and each occupant has the room on record; the connections
    listed are the live ones, each once; and the objects that are room
    keys have been counted. *)
Record table_ok (st : Adapter) : Prop := mk_table_ok {
  ok_nonempty : ∀ k old, rooms st !! k = Some old → old ≠ [];
  ok_nodup : ∀ k old, rooms st !! k = Some old → NoDup old;
  ok_recorded : ∀ k old c,
    rooms st !! k = Some old → c ∈ old →
    ∃ l, sids st !! c = Some l ∧ k ∈ l;
  ok_conns : ∀ c, c ∈ conns st ↔ connected st c;
  ok_conns_nodup : NoDup (conns st);
  ok_fresh : ∀ n old, rooms st !! KRef n = Some old → n < objects st
}.

(** No room has more than two occupants. *)
Definition capped (st : Adapter) : Prop :=
  ∀ k, length (members st k) ≤ 2.

(** What one connection sends between its connect and its disconnect: a
    join request or one of the four relays. *)
Inductive SessionEvent : Type :=
  | SJoin (roomId : JsVal)
  | SRelay (k : Relay).

Definition session_input (socket : string) (e : SessionEvent) : Input :=
  match e with
  | SJoin roomId => InJoin socket roomId
  | SRelay k => InRelay socket k
  end.

(** An event whose handler does not throw. *)
Definition quiet (e : SessionEvent) : Prop :=
  match e with
  | SJoin roomId => str_throws roomId = false
  | SRelay k => relay_throws k = false
  end.

(** The whole life of one connection, nothing else happening meanwhile. *)
Definition session (socket : string) (events : list SessionEvent) : list Input :=
  InConnect socket :: map (session_input socket) events ++ [InDisconnect socket].

(** The scenario of the spec, run. *)
Example scenario_outcome :
  snd <$> run scenario empty_adapter =
  Some [mkEmit "c1" "room_created" [JStr "42"];
        mkEmit "c2" "room_joined" [JStr "42"];
        mkEmit "c3" "full_room" [JStr "42"];
        mkEmit "c1" "start_call" []].
Proof. vm_compute. reflexivity. Qed.

Example crowded_outcome :
  snd <$> run crowded empty_adapter =
  Some [mkEmit "c1" "room_created" [JStr "42"];
        mkEmit "c2" "room_joined" [JStr "42"];
        mkEmit "c3" "room_created" [JArr [JStr "42"]]] ∧
  occupants (state_after crowded) "42" = ["c1"; "c2"; "c3"].
Proof. vm_compute. split; reflexivity. Qed.

Example eclipsed_outcome :
  occupants (state_after eclipsed) "42" = ["c1"; "c2"] ∧
  occupants (state_after eclipsed) "c1" = ["c1"; "c2"] ∧
  on_relay "c1" (StartCall (JStr "42")) (state_after eclipsed) =
    Done () (state_after eclipsed) [] ∧
  on_relay "c2" (StartCall (JStr "42")) (state_after eclipsed) =
    Done () (state_after eclipsed) [mkEmit "c1" "start_call" []].
Proof. vm_compute. repeat split; reflexivity. Qed.

(** ** Sets as ordered lists *)

Section ordered_sets.
Context `{EqDecision A}.
Implicit Types (x y : A) (s : list A).

Lemma elem_of_set_add x y s : y ∈ set_add x s ↔ y = x ∨ y ∈ s.
Proof.
  unfold set_add. case_decide.
  - split; [auto | intros [-> | ?]; done].
  - rewrite elem_of_app, list_elem_of_singleton. tauto.
Qed.

Lemma NoDup_set_add x s : NoDup s → NoDup (set_add x s).
Proof.
  intros Hs. unfold set_add. case_decide; [done |].
  apply NoDup_app. split_and!; [done | | apply NoDup_singleton].
  intros y Hy ->%list_elem_of_singleton. done.
Qed.

Lemma length_set_add x s : length (set_add x s) ≤ S (length s).
Proof.
  unfold set_add. case_decide; [lia |]. rewrite length_app. simpl. lia.
Qed.

Lemma set_add_nonempty x s : set_add x s ≠ [].
Proof.
  unfold set_add. case_decide as Hx.
  - intros ->. by apply not_elem_of_nil in Hx.
  - by destruct s.
Qed.

Lemma elem_of_set_delete x y s : y ∈ set_delete x s ↔ y ≠ x ∧ y ∈ s.
Proof. unfold set_delete. by rewrite list_elem_of_filter. Qed.

Lemma set_delete_not_elem x s : x ∉ s → set_delete x s = s.
Proof.
  intros Hx. unfold set_delete. induction s as [| y s IH]; [done |].
  apply not_elem_of_cons in Hx as [Hne Hx].
  rewrite filter_cons_True by done. by rewrite IH.
Qed.

Lemma set_delete_idemp x s : set_delete x (set_delete x s) = set_delete x s.
Proof.
  apply set_delete_not_elem. rewrite elem_of_set_delete. by intros [? _].
Qed.

Lemma set_delete_single x : set_delete x [x] = [].
Proof. unfold set_delete. by rewrite filter_cons_False by (intros ?; done). Qed.

Lemma set_delete_pair x y s : y ≠ x → s ≡ₚ [x; y] → set_delete x s = [y].
Proof.
  intros Hne Hperm. unfold set_delete.
  symmetry in Hperm. apply Permutation_length_2_inv in Hperm as [-> | ->].
  - rewrite filter_cons_False by (intros ?; done).
    by rewrite filter_cons_True by done.
  - rewrite filter_cons_True by done.
    by rewrite filter_cons_False by (intros ?; done).
Qed.

Lemma NoDup_set_delete x s : NoDup s → NoDup (set_delete x s).
Proof. apply NoDup_filter. Qed.

Lemma length_set_delete x s : length (set_delete x s) ≤ length s.
Proof. apply length_filter. Qed.

Lemma length_set_delete_elem x s :
  x ∈ s → length (set_delete x s) < length s.
Proof.
  unfold set_delete. induction s as [| y s IH]; intros Hx.
  - by apply not_elem_of_nil in Hx.
  - destruct (decide (y = x)) as [-> | Hne].
    + rewrite filter_cons_False by (intros ?; done).
      pose proof (length_filter (λ y, y ≠ x) s). simpl. lia.
    + rewrite filter_cons_True by done. simpl.
      apply elem_of_cons in Hx as [-> | Hx]; [done |].
      specialize (IH Hx). lia.
Qed.

Lemma set_delete_set_add x s :
  set_delete x (set_add x s) = set_delete x s.
Proof.
  unfold set_add. case_decide; [done |]. unfold set_delete.
  rewrite filter_app, filter_cons_False by (intros ?; done).
  by rewrite filter_nil, app_nil_r.
Qed.

Lemma set_delete_app_single x s : x ∉ s → set_delete x (s ++ [x]) = s.
Proof.
  intros Hx. unfold set_delete.
  rewrite filter_app, filter_cons_False by (intros ?; done).
  rewrite filter_nil, app_nil_r. by apply set_delete_not_elem.
Qed.
End ordered_sets.

(** ** Values *)

Lemma wire_json v : is_json v = true → wire v = v.
Proof.
  induction v as [| | b | n | s | items IH | fields IH] using JsVal_nested_ind;
    simpl; try done.
  - intros Hjson. f_equal. induction IH as [| x items Hx _ IHitems]; [done |].
    simpl in *. apply andb_true_iff in Hjson as [Hjx Hjitems].
    by rewrite Hx, IHitems.
  - intros Hjson. f_equal. induction IH as [| [k x] fields Hx _ IHfields]; [done |].
    simpl in *. apply andb_true_iff in Hjson as [Hjx Hjfields].
    rewrite IHfields by done. rewrite Hx by done. by destruct x.
Qed.

Lemma assoc_absent key (fields : list (string * JsVal)) :
  key ∉ fields.*1 → assoc key fields = JUndefined.
Proof.
  induction fields as [| [k v] fields IH]; simpl; [done |].
  intros [Hne Hrest]%not_elem_of_cons.
  destruct (String.eqb_spec key k); [done | auto].
Qed.

Lemma alloc_keys_bound vs : ∀ next keys next',
  alloc_keys vs next = (keys, next') →
  next ≤ next' ∧ ∀ n, KRef n ∈ keys → n < next'.
Proof.
  induction vs as [| v vs IH]; intros next keys next'; simpl.
  - intros [= <- <-]. split; [lia |]. by intros n ?%not_elem_of_nil.
  - destruct (key_of v) as [k |] eqn:Hk.
    + destruct (alloc_keys vs next) as [ks n1] eqn:Hrest.
      intros [= <- <-]. destruct (IH _ _ _ Hrest) as [Hle Hin].
      split; [done |]. intros n [Heq | Hn]%elem_of_cons; [| auto].
      subst k. by destruct v.
    + destruct (alloc_keys vs (S next)) as [ks n1] eqn:Hrest.
      intros [= <- <-]. destruct (IH _ _ _ Hrest) as [Hle Hin].
      split; [lia |]. intros n [[= ->] | Hn]%elem_of_cons; [lia | auto].
Qed.

(** ** The room table under join and removal *)

Lemma adapter_eq (a b : Adapter) :
  rooms a = rooms b → sids a = sids b → conns a = conns b →
  objects a = objects b → a = b.
Proof. destruct a, b; simpl. by intros -> -> -> ->. Qed.

Lemma rooms_add_room_eq id k a :
  rooms (add_room id k a) !! k = Some (set_add id (members a k)).
Proof.
  unfold add_room, members, set_add; simpl.
  destruct (rooms a !! k) as [old |] eqn:Hr; simpl.
  - rewrite Hr; simpl. case_decide; [done |]. by rewrite lookup_insert_eq.
  - rewrite lookup_insert_eq; simpl. by rewrite lookup_insert_eq.
Qed.

Lemma rooms_add_room_ne id k a k' :
  k' ≠ k → rooms (add_room id k a) !! k' = rooms a !! k'.
Proof.
  intros Hne. unfold add_room; simpl.
  destruct (rooms a !! k) as [old |] eqn:Hr; simpl.
  - rewrite Hr; simpl. case_decide; [done |]. by rewrite lookup_insert_ne.
  - rewrite lookup_insert_eq; simpl. by rewrite !lookup_insert_ne.
Qed.

Lemma members_add_room id k a k' :
  members (add_room id k a) k' =
  if decide (k' = k) then set_add id (members a k) else members a k'.
Proof.
  unfold members at 1. case_decide as Hk.
  - subst k'. by rewrite rooms_add_room_eq.
  - by rewrite rooms_add_room_ne.
Qed.

Lemma sids_add_room_eq id k a :
  sids (add_room id k a) !! id = Some (set_add k (default [] (sids a !! id))).
Proof. unfold add_room; simpl. by rewrite lookup_insert_eq. Qed.

Lemma sids_add_room_ne id k a c :
  c ≠ id → sids (add_room id k a) !! c = sids a !! c.
Proof. intros Hne. unfold add_room; simpl. by rewrite lookup_insert_ne. Qed.

Lemma rooms_add_room_member id k a :
  id ∈ members a k → rooms (add_room id k a) = rooms a.
Proof.
  unfold members, add_room; simpl.
  destruct (rooms a !! k) as [old |] eqn:Hr; simpl.
  - intros Hin. rewrite Hr; simpl. by rewrite decide_True.
  - intros Hin. by apply not_elem_of_nil in Hin.
Qed.

Lemma sids_ensure_sid id a c :
  sids (ensure_sid id a) !! c =
  if decide (c = id) then Some (default [] (sids a !! id)) else sids a !! c.
Proof.
  unfold ensure_sid. destruct (sids a !! id) as [l |] eqn:Hid; simpl.
  - case_decide; [by subst | done].
  - case_decide; [subst; apply lookup_insert_eq | by apply lookup_insert_ne].
Qed.

Lemma ensure_sid_connected id a : connected a id → ensure_sid id a = a.
Proof. unfold ensure_sid. by intros [l ->]. Qed.

(** Joining one room: what [socket.join] does for an identifier that is
    not an array. *)
Lemma addAll_single id k a : addAll id [k] a = add_room id k (ensure_sid id a).
Proof. reflexivity. Qed.

Lemma rooms_ensure_sid id a : rooms (ensure_sid id a) = rooms a.
Proof. unfold ensure_sid. by destruct (sids a !! id). Qed.

Lemma members_ensure_sid id a k : members (ensure_sid id a) k = members a k.
Proof. unfold members. by rewrite rooms_ensure_sid. Qed.

Lemma rooms_addAll_eq id k a :
  rooms (addAll id [k] a) !! k = Some (set_add id (members a k)).
Proof.
  by rewrite addAll_single, rooms_add_room_eq, members_ensure_sid.
Qed.

Lemma rooms_addAll_ne id k a k' :
  k' ≠ k → rooms (addAll id [k] a) !! k' = rooms a !! k'.
Proof.
  intros Hne. by rewrite addAll_single, rooms_add_room_ne, rooms_ensure_sid.
Qed.

Lemma members_addAll id k a k' :
  members (addAll id [k] a) k' =
  if decide (k' = k) then set_add id (members a k) else members a k'.
Proof.
  unfold members at 1. case_decide as Hk.
  - subst k'. by rewrite rooms_addAll_eq.
  - by rewrite rooms_addAll_ne.
Qed.

Lemma occupants_addAll id room a r :
  occupants (addAll id [KStr room] a) r =
  if decide (r = room) then set_add id (occupants a room) else occupants a r.
Proof.
  unfold occupants. rewrite members_addAll.
  destruct (decide (r = room)) as [-> | Hne].
  - by rewrite decide_True.
  - rewrite decide_False; [done |]. by intros [= ?].
Qed.

Lemma rooms_addAll_member id k a :
  id ∈ members a k → rooms (addAll id [k] a) = rooms a.
Proof.
  intros Hin. rewrite addAll_single, rooms_add_room_member.
  - apply rooms_ensure_sid.
  - by rewrite members_ensure_sid.
Qed.

Lemma sids_addAll_eq id k a :
  sids (addAll id [k] a) !! id = Some (set_add k (default [] (sids a !! id))).
Proof.
  rewrite addAll_single, sids_add_room_eq, sids_ensure_sid.
  by rewrite decide_True.
Qed.

Lemma sids_addAll_ne id k a c :
  c ≠ id → sids (addAll id [k] a) !! c = sids a !! c.
Proof.
  intros Hne. rewrite addAll_single, sids_add_room_ne by done.
  rewrite sids_ensure_sid. by rewrite decide_False.
Qed.

(** For a room identifier that is a string, [socket.join] enters that one
    room and counts no object. *)
Lemma joined_str id r st : joined id (JStr r) st = addAll id [KStr r] st.
Proof. reflexivity. Qed.

Lemma del_members_idemp id o :
  del_members id (del_members id o) = del_members id o.
Proof.
  destruct o as [old |]; simpl; [| done].
  destruct (length (set_delete id old) =? 0) eqn:Hl; simpl; [done |].
  by rewrite set_delete_idemp, Hl.
Qed.

Lemma del_room_lookup id room rs k :
  del_room id room rs !! k =
  if decide (k = room) then del_members id (rs !! room) else rs !! k.
Proof.
  unfold del_room, del_members.
  destruct (rs !! room) as [old |] eqn:Hr.
  - destruct (length (set_delete id old) =? 0).
    + case_decide; subst; [apply lookup_delete_eq | by apply lookup_delete_ne].
    + case_decide; subst; [apply lookup_insert_eq | by apply lookup_insert_ne].
  - case_decide; subst; done.
Qed.

Lemma foldr_del_room_lookup id (l : list Key) rs k :
  foldr (del_room id) rs l !! k =
  if decide (k ∈ l) then del_members id (rs !! k) else rs !! k.
Proof.
  revert k. induction l as [| room l IH]; intros k; simpl.
  - done.
  - rewrite del_room_lookup. destruct (decide (k = room)) as [-> | Hne].
    + rewrite decide_True by left. rewrite IH.
      case_decide; [apply del_members_idemp | done].
    + rewrite IH. destruct (decide (k ∈ l)) as [Hin | Hin].
      * rewrite decide_True by (by right). done.
      * rewrite decide_False; [done |].
        by intros [? | ?]%elem_of_cons.
Qed.

(** The rooms left after a disconnect. *)
Lemma rooms_delAll id st k :
  rooms (delAll id st) !! k =
  match sids st !! id with
  | Some l => if decide (k ∈ l) then del_members id (rooms st !! k)
              else rooms st !! k
  | None => rooms st !! k
  end.
Proof.
  unfold delAll. destruct (sids st !! id) as [l |]; simpl; [| done].
  apply foldr_del_room_lookup.
Qed.

Lemma sids_delAll id st c :
  sids (delAll id st) !! c = if decide (c = id) then None else sids st !! c.
Proof.
  unfold delAll. destruct (sids st !! id) as [l |] eqn:Hid; simpl.
  - case_decide; subst; [apply lookup_delete_eq | by apply lookup_delete_ne].
  - case_decide; subst; done.
Qed.

(** ** Whom a relay reaches *)

Lemma elem_of_foldl_serve st s l : ∀ ids c,
  c ∈ foldl (serve st s) ids l ↔ c ∈ ids ∨ (c ∈ l ∧ ¬ left_out st s c).
Proof.
  induction l as [| x l IH]; intros ids c; simpl.
  - split; [auto | intros [? | [?%not_elem_of_nil _]]; done].
  - rewrite IH. unfold serve. rewrite elem_of_cons. case_decide as Hx.
    + split; [intros [? | [? ?]]; auto |].
      intros [? | [[-> | ?] ?]]; auto. done.
    + rewrite elem_of_set_add. split.
      * intros [[-> | ?] | [? ?]]; auto.
      * intros [? | [[-> | ?] ?]]; auto.
Qed.

Lemma NoDup_foldl_serve st s l : ∀ ids,
  NoDup ids → NoDup (foldl (serve st s) ids l).
Proof.
  induction l as [| x l IH]; intros ids Hids; simpl; [done |].
  apply IH. unfold serve. case_decide; [done | by apply NoDup_set_add].
Qed.

Lemma foldl_serve_NoDup st s l : ∀ ids,
  NoDup (ids ++ l) →
  foldl (serve st s) ids l = ids ++ filter (λ c, ¬ left_out st s c) l.
Proof.
  induction l as [| x l IH]; intros ids Hnd; simpl.
  - by rewrite app_nil_r.
  - unfold serve at 2. case_decide as Hx.
    + rewrite filter_cons_False by (intros ?; done). apply IH.
      apply NoDup_app in Hnd as (Hids & Hdis & Hl).
      apply NoDup_cons in Hl as [_ Hl].
      apply NoDup_app. split_and!; [done | | done].
      intros y Hy Hyl. apply (Hdis y Hy). by right.
    + rewrite filter_cons_True by done.
      assert (x ∉ ids) as Hxi.
      { apply NoDup_app in Hnd as (_ & Hdis & _). intros Hin.
        apply (Hdis x Hin). left. }
      unfold set_add. rewrite decide_False by done.
      rewrite IH; [by rewrite <- app_assoc |].
      by rewrite <- app_assoc.
Qed.

(** The targets of a relay to the room a string names. *)
Lemma broadcast_targets_str st s r :
  broadcast_targets st s (JStr r) = foldl (serve st s) [] (occupants st r).
Proof.
  unfold broadcast_targets. simpl. by rewrite app_nil_r.
Qed.

Lemma broadcast_targets_str_NoDup st s r :
  NoDup (occupants st r) →
  broadcast_targets st s (JStr r) =
  filter (λ c, ¬ left_out st s c) (occupants st r).
Proof.
  intros Hnd. rewrite broadcast_targets_str. by rewrite foldl_serve_NoDup.
Qed.

(** Nobody who is left out is reached, the sender least of all. *)
Lemma broadcast_targets_left_out st s room c :
  c ∈ broadcast_targets st s room → ¬ left_out st s c.
Proof.
  unfold broadcast_targets. destruct (as_list room) as [| r rs].
  - by intros [? _]%list_elem_of_filter.
  - intros [?%not_elem_of_nil | [_ ?]]%elem_of_foldl_serve; done.
Qed.

(** ** The handlers, equation by equation *)

Lemma on_join_eq socket roomId st :
  on_join socket roomId st =
  if str_throws roomId then TypeError
  else Done ()
         (if decide (length (room_members st roomId) < 2)
          then joined socket roomId st else st)
         [mkEmit socket (verdict (length (room_members st roomId)))
            [wire roomId]].
Proof.
  unfold on_join, mbind, M_bind, rooms_get, room_members, members, console_log.
  assert (match key_of roomId ≫= λ k, rooms st !! k with
          | Some s => length s
          | None => 0
          end =
          length match key_of roomId with
                 | Some k => default [] (rooms st !! k)
                 | None => []
                 end) as ->.
  { destruct (key_of roomId) as [k |]; simpl; [| done].
    by destruct (rooms st !! k). }
  destruct (length _) as [| [| n]]; simpl;
    destruct (str_throws roomId); simpl; done.
Qed.

Lemma on_join_str socket r st :
  on_join socket (JStr r) st =
  Done ()
    (if decide (length (occupants st r) < 2)
     then addAll socket [KStr r] st else st)
    [mkEmit socket (verdict (length (occupants st r))) [JStr r]].
Proof. by rewrite on_join_eq. Qed.

Lemma on_join_created socket r st :
  length (occupants st r) = 0 →
  on_join socket (JStr r) st =
  Done () (addAll socket [KStr r] st) [mkEmit socket "room_created" [JStr r]].
Proof. intros Hn. rewrite on_join_str, Hn. done. Qed.

Lemma on_join_joined socket r st :
  length (occupants st r) = 1 →
  on_join socket (JStr r) st =
  Done () (addAll socket [KStr r] st) [mkEmit socket "room_joined" [JStr r]].
Proof. intros Hn. rewrite on_join_str, Hn. done. Qed.

Lemma on_join_full socket r st :
  2 ≤ length (occupants st r) →
  on_join socket (JStr r) st =
  Done () st [mkEmit socket "full_room" [JStr r]].
Proof.
  intros Hn. rewrite on_join_str, decide_False by lia.
  destruct (length (occupants st r)) as [| [| n]]; [lia | lia | done].
Qed.

(** A relay whose room can be read and written into the log line leaves
    the tables as they are and sends one message to each socket that the
    broadcast reaches. *)
Lemma on_relay_eq socket k st room :
  relay_room k = Some room → str_throws room = false →
  ∃ payload,
    on_relay socket k st =
    Done () st (map (λ c, mkEmit c (relay_name k) payload)
                    (broadcast_targets st socket room)) ∧
    match k with
    | StartCall _ => payload = []
    | WebrtcOffer event | WebrtcAnswer event =>
        ∃ sdp, get_prop event "sdp" = Some sdp ∧ payload = [wire sdp]
    | WebrtcIceCandidate event => payload = [wire event]
    end.
Proof.
  destruct k as [r | event | event | event]; simpl; intros Hroom Hstr.
  - injection Hroom as <-. exists [].
    unfold on_start_call, mbind, M_bind, console_log. by rewrite Hstr.
  - unfold on_webrtc_offer, mbind, M_bind, prop, console_log.
    rewrite Hroom, Hstr. destruct event; try done; simpl; eauto.
  - unfold on_webrtc_answer, mbind, M_bind, prop, console_log.
    rewrite Hroom, Hstr. destruct event; try done; simpl; eauto.
  - unfold on_webrtc_ice_candidate, mbind, M_bind, prop, console_log.
    rewrite Hroom, Hstr. simpl. eauto.
Qed.

(** A relay whose room cannot be read, or cannot be written into the log
    line, throws before anything is sent. *)
Lemma on_relay_throws socket k st :
  relay_throws k = true → on_relay socket k st = TypeError.
Proof.
  unfold relay_throws.
  destruct k as [r | event | event | event]; simpl.
  - intros Hstr. unfold on_start_call, mbind, M_bind, console_log.
    by rewrite Hstr.
  - unfold on_webrtc_offer, mbind, M_bind, prop, console_log.
    destruct (get_prop event "roomId"); [by intros -> | done].
  - unfold on_webrtc_answer, mbind, M_bind, prop, console_log.
    destruct (get_prop event "roomId"); [by intros -> | done].
  - unfold on_webrtc_ice_candidate, mbind, M_bind, prop, console_log.
    destruct (get_prop event "roomId"); [by intros -> | done].
Qed.

Lemma relay_throws_false k :
  relay_throws k = false →
  ∃ room, relay_room k = Some room ∧ str_throws room = false.
Proof. unfold relay_throws. destruct (relay_room k); [eauto | done]. Qed.

Lemma on_relay_state socket k st st' out :
  on_relay socket k st = Done () st' out → st' = st.
Proof.
  destruct (relay_throws k) eqn:Hthrows.
  - by rewrite on_relay_throws.
  - destruct (relay_throws_false k Hthrows) as (room & Hroom & Hstr).
    destruct (on_relay_eq socket k st room Hroom Hstr) as (payload & -> & _).
    by intros [= <- _].
Qed.

(** ** The invariant of the room table *)

Lemma table_ok_empty : table_ok empty_adapter.
Proof.
  split; simpl; try (intros *; by rewrite lookup_empty).
  - intros c. unfold connected. simpl. rewrite lookup_empty. split.
    + by intros ?%not_elem_of_nil.
    + by intros [? ?].
  - apply NoDup_nil_2.
Qed.

Lemma table_ok_members st k : table_ok st → NoDup (members st k).
Proof.
  intros Hok. unfold members.
  destruct (rooms st !! k) as [old |] eqn:Hr; simpl.
  - by eapply ok_nodup.
  - apply NoDup_nil_2.
Qed.

(** In a table that is in order the members of a room are live. *)
Lemma members_connected st k c :
  table_ok st → c ∈ members st k → connected st c.
Proof.
  intros Hok. unfold members.
  destruct (rooms st !! k) as [old |] eqn:Hr; simpl.
  - intros Hc. destruct (ok_recorded st Hok k old c Hr Hc) as (l & Hl & _).
    unfold connected. by rewrite Hl.
  - by intros ?%not_elem_of_nil.
Qed.

Lemma occupants_connected st r c :
  table_ok st → c ∈ occupants st r → connected st c.
Proof. apply members_connected. Qed.

Lemma table_ok_bump st n :
  table_ok st → objects st ≤ n →
  table_ok (mkAdapter (rooms st) (sids st) (conns st) n).
Proof.
  intros [] Hn. split; simpl; try done.
  intros m old Hr. specialize (ok_fresh0 m old Hr). lia.
Qed.

Lemma connected_ensure_sid id a : connected (ensure_sid id a) id.
Proof. unfold connected. rewrite sids_ensure_sid, decide_True by done. eauto. Qed.

Lemma table_ok_ensure_sid id a : table_ok a → table_ok (ensure_sid id a).
Proof.
  intros Hok. unfold ensure_sid.
  destruct (sids a !! id) as [l |] eqn:Hid; [done |].
  assert (id ∉ conns a) as Hfresh.
  { rewrite (ok_conns a Hok). unfold connected. rewrite Hid. by intros [? ?]. }
  split; simpl.
  - apply Hok.
  - apply Hok.
  - intros k old c Hr Hc.
    destruct (ok_recorded a Hok k old c Hr Hc) as (l & Hl & Hk).
    exists l. split; [| done]. rewrite lookup_insert_ne; [done |]. congruence.
  - intros c. unfold connected; simpl. rewrite elem_of_app, list_elem_of_singleton.
    rewrite (ok_conns a Hok). unfold connected.
    destruct (decide (c = id)) as [-> | Hne].
    + rewrite lookup_insert_eq. split; eauto.
    + rewrite lookup_insert_ne by done. split; [intros [? | ?]; done | auto].
  - apply NoDup_app. split_and!; [apply Hok | | apply NoDup_singleton].
    intros c Hc ->%list_elem_of_singleton. done.
  - apply Hok.
Qed.

Lemma connected_add_room id k a c :
  connected a id → (connected (add_room id k a) c ↔ connected a c).
Proof.
  intros Hid. unfold connected. destruct (decide (c = id)) as [-> | Hne].
  - rewrite sids_add_room_eq. split; eauto.
  - by rewrite sids_add_room_ne.
Qed.

Lemma table_ok_add_room id k a :
  table_ok a → connected a id → (∀ n, k = KRef n → n < objects a) →
  table_ok (add_room id k a).
Proof.
  intros Hok Hid Hbound. split.
  - intros k' old. destruct (decide (k' = k)) as [-> | Hne].
    + rewrite rooms_add_room_eq. intros [= <-]. apply set_add_nonempty.
    + rewrite rooms_add_room_ne by done. apply Hok.
  - intros k' old. destruct (decide (k' = k)) as [-> | Hne].
    + rewrite rooms_add_room_eq. intros [= <-].
      by apply NoDup_set_add, table_ok_members.
    + rewrite rooms_add_room_ne by done. apply Hok.
  - intros k' old c Hr Hc.
    assert (c ≠ id → ∃ l, sids a !! c = Some l ∧ k' ∈ l) as Hold.
    { intros Hcid. destruct (decide (k' = k)) as [-> | Hne].
      - rewrite rooms_add_room_eq in Hr. injection Hr as <-.
        apply elem_of_set_add in Hc as [? | Hc]; [done |].
        unfold members in Hc.
        destruct (rooms a !! k) as [ms |] eqn:Hms; simpl in Hc.
        + eapply ok_recorded; eauto.
        + by apply not_elem_of_nil in Hc.
      - rewrite rooms_add_room_ne in Hr by done. eapply ok_recorded; eauto. }
    destruct (decide (c = id)) as [-> | Hcid].
    + rewrite sids_add_room_eq. eexists; split; [done |].
      apply elem_of_set_add.
      destruct (decide (k' = k)) as [-> | Hne]; [by left | right].
      rewrite rooms_add_room_ne in Hr by done.
      destruct (ok_recorded a Hok k' old id Hr Hc) as (l & -> & Hl). done.
    + rewrite sids_add_room_ne by done. auto.
  - intros c. rewrite connected_add_room by done. apply (ok_conns a Hok).
  - apply (ok_conns_nodup a Hok).
  - intros n old. destruct (decide (KRef n = k)) as [<- | Hne].
    + intros _. by apply Hbound.
    + rewrite rooms_add_room_ne by done. apply (ok_fresh a Hok).
Qed.

Lemma table_ok_foldl_add_room id keys : ∀ a,
  table_ok a → connected a id → (∀ n, KRef n ∈ keys → n < objects a) →
  table_ok (foldl (λ acc room, add_room id room acc) a keys) ∧
  connected (foldl (λ acc room, add_room id room acc) a keys) id.
Proof.
  induction keys as [| k keys IH]; intros a Hok Hid Hbound; simpl; [done |].
  apply IH.
  - apply table_ok_add_room; [done | done |].
    intros n ->. apply Hbound. left.
  - by apply connected_add_room.
  - intros n Hn. apply Hbound. by right.
Qed.

Lemma table_ok_addAll id keys a :
  table_ok a → (∀ n, KRef n ∈ keys → n < objects a) →
  table_ok (addAll id keys a).
Proof.
  intros Hok Hbound. unfold addAll. apply table_ok_foldl_add_room.
  - by apply table_ok_ensure_sid.
  - apply connected_ensure_sid.
  - unfold ensure_sid. destruct (sids a !! id); simpl; done.
Qed.

Lemma connected_addAll id keys a : connected (addAll id keys a) id.
Proof.
  unfold addAll. generalize (connected_ensure_sid id a).
  generalize (ensure_sid id a). induction keys as [| k keys IH]; intros b Hb.
  - done.
  - simpl. apply IH. by apply connected_add_room.
Qed.

Lemma table_ok_joined socket roomId st :
  table_ok st → table_ok (joined socket roomId st).
Proof.
  intros Hok. unfold joined.
  destruct (alloc_keys (as_list roomId) (objects st)) as [keys next] eqn:Halloc.
  destruct (alloc_keys_bound _ _ _ _ Halloc) as [Hle Hbound].
  apply table_ok_addAll; [by apply table_ok_bump | done].
Qed.

Lemma table_ok_delAll id st : table_ok st → table_ok (delAll id st).
Proof.
  intros Hok.
  assert (∀ k now, rooms (delAll id st) !! k = Some now →
            now ≠ [] ∧
            ∃ old, rooms st !! k = Some old ∧
                   (now = old ∨ now = set_delete id old)) as Hdel.
  { intros k now. rewrite rooms_delAll.
    destruct (sids st !! id) as [l |]; [case_decide |].
    - unfold del_members. destruct (rooms st !! k) as [old |]; [| done].
      destruct (length (set_delete id old) =? 0) eqn:Hl; [done |].
      intros [= <-]. split; [| eauto].
      intros Hnil. rewrite Hnil in Hl. done.
    - intros Hr. split; [by eapply ok_nonempty | eauto].
    - intros Hr. split; [by eapply ok_nonempty | eauto]. }
  assert (objects (delAll id st) = objects st) as Hobj.
  { unfold delAll. by destruct (sids st !! id). }
  assert (conns (delAll id st) = set_delete id (conns st)) as Hconns.
  { unfold delAll. destruct (sids st !! id) as [l |] eqn:Hid; [done |].
    symmetry. apply set_delete_not_elem. rewrite (ok_conns st Hok).
    unfold connected. rewrite Hid. by intros [? ?]. }
  split.
  - intros k now Hr. by destruct (Hdel k now Hr).
  - intros k now Hr. destruct (Hdel k now Hr) as (_ & old & Hold & [-> | ->]);
      [| apply NoDup_set_delete]; by eapply ok_nodup.
  - intros k now c Hr Hc. destruct (Hdel k now Hr) as (_ & old & Hold & Hm).
    rewrite sids_delAll. destruct (decide (c = id)) as [-> | Hcid].
    + exfalso. destruct Hm as [-> | ->].
      * revert Hr. rewrite rooms_delAll.
        destruct (ok_recorded st Hok k old id Hold Hc) as (l & -> & Hl).
        rewrite decide_True by done. rewrite Hold. unfold del_members.
        destruct (length (set_delete id old) =? 0); [done |].
        intros [= Heq]. rewrite <- Heq in Hc.
        apply elem_of_set_delete in Hc as [? _]. done.
      * apply elem_of_set_delete in Hc as [? _]. done.
    + eapply ok_recorded; [done | exact Hold |].
      destruct Hm as [-> | ->]; [done |].
      by apply elem_of_set_delete in Hc as [_ ?].
  - intros c. rewrite Hconns, elem_of_set_delete, (ok_conns st Hok).
    unfold connected. rewrite sids_delAll. case_decide as Hc.
    + split; [by intros [? _] | by intros [? ?]].
    + tauto.
  - rewrite Hconns. apply NoDup_set_delete, Hok.
  - intros n now Hr. destruct (Hdel _ now Hr) as (_ & old & Hold & _).
    rewrite Hobj. by eapply ok_fresh.
Qed.

(** Every input the server handles keeps the table in order. *)
Lemma table_ok_handle st i st' out :
  table_ok st → handle i st = Done () st' out → table_ok st'.
Proof.
  intros Hok. destruct i as [c | c r | c k | c]; simpl.
  - intros [= <- _]. apply table_ok_addAll; [done |].
    intros n [[=] | ?%not_elem_of_nil]%elem_of_cons. done.
  - rewrite on_join_eq. destruct (str_throws r); [done |].
    intros [= <- _]. case_decide; [| done]. by apply table_ok_joined.
  - intros ->%on_relay_state. done.
  - intros [= <- _]. by apply table_ok_delAll.
Qed.

Lemma reachable_table_ok st : reachable st → table_ok st.
Proof.
  induction 1 as [| st i st' out _ IH Hen Hstep].
  - apply table_ok_empty.
  - by eapply table_ok_handle.
Qed.

Lemma reachable_plain_reachable st : reachable_plain st → reachable st.
Proof.
  induction 1 as [| st i st' out _ IH Hplain Hen Hstep].
  - apply reachable_init.
  - by eapply reachable_step.
Qed.

Lemma reachable_run inputs : ∀ st st' out,
  reachable st → run inputs st = Some (st', out) → reachable st'.
Proof.
  induction inputs as [| i rest IH]; intros st st' out Hst; simpl.
  - by intros [= <- _].
  - case_decide as Hen; [| done].
    destruct (handle i st) as [[] st1 out1 |] eqn:Hstep; [| done].
    destruct (run rest st1) as [[st2 out2] |] eqn:Hrest; [| done].
    intros [= <- _]. eapply IH; [| exact Hrest].
    by eapply reachable_step.
Qed.

Lemma reachable_state_after inputs : reachable (state_after inputs).
Proof.
  unfold state_after.
  destruct (run inputs empty_adapter) as [[st out] |] eqn:Hrun.
  - eapply reachable_run; [apply reachable_init | exact Hrun].
  - apply reachable_init.
Qed.

Lemma reachable_plain_run inputs : ∀ st st' out,
  reachable_plain st → Forall plain inputs →
  run inputs st = Some (st', out) → reachable_plain st'.
Proof.
  induction inputs as [| i rest IH]; intros st st' out Hst Hplain; simpl.
  - by intros [= <- _].
  - apply Forall_cons in Hplain as [Hi Hrest'].
    case_decide as Hen; [| done].
    destruct (handle i st) as [[] st1 out1 |] eqn:Hstep; [| done].
    destruct (run rest st1) as [[st2 out2] |] eqn:Hrest; [| done].
    intros [= <- _]. eapply IH; [| done | exact Hrest].
    by eapply reachable_plain_step.
Qed.

Lemma reachable_plain_state_after inputs :
  Forall plain inputs → reachable_plain (state_after inputs).
Proof.
  intros Hplain. unfold state_after.
  destruct (run inputs empty_adapter) as [[st out] |] eqn:Hrun.
  - eapply reachable_plain_run; [apply reachable_plain_init | done | exact Hrun].
  - apply reachable_plain_init.
Qed.

(** In a table that is in order, a disconnect takes the connection out of
    every room and drops the rooms that become empty. *)
Lemma rooms_delAll_ok id st k :
  table_ok st → rooms (delAll id st) !! k = del_members id (rooms st !! k).
Proof.
  intros Hok. rewrite rooms_delAll.
  assert (id ∉ default [] (rooms st !! k) →
          rooms st !! k = del_members id (rooms st !! k)) as Hout.
  { destruct (rooms st !! k) as [old |] eqn:Hr; simpl; [| done].
    intros Hid. rewrite set_delete_not_elem by done.
    pose proof (ok_nonempty st Hok k old Hr). by destruct old. }
  assert (sids st !! id = None ∨ (∃ l, sids st !! id = Some l ∧ k ∉ l) →
          id ∉ default [] (rooms st !! k)) as Hnot.
  { intros Hl. destruct (rooms st !! k) as [old |] eqn:Hr; simpl.
    - intros Hid.
      destruct (ok_recorded st Hok k old id Hr Hid) as (l' & Hl' & ?).
      destruct Hl as [Hl | (l & Hl & ?)]; congruence.
    - apply not_elem_of_nil. }
  destruct (sids st !! id) as [l |] eqn:Hl.
  - case_decide as Hkl; [done |]. apply Hout, Hnot. eauto.
  - apply Hout, Hnot. eauto.
Qed.

Lemma members_delAll_ok id st k :
  table_ok st → members (delAll id st) k = set_delete id (members st k).
Proof.
  intros Hok. unfold members. rewrite rooms_delAll_ok by done.
  destruct (rooms st !! k) as [old |]; simpl; [| done].
  destruct (length (set_delete id old) =? 0) eqn:Hlen; simpl; [| done].
  by destruct (set_delete id old).
Qed.

Lemma occupants_delAll_ok id st r :
  table_ok st → occupants (delAll id st) r = set_delete id (occupants st r).
Proof. apply members_delAll_ok. Qed.

(** ** Capacity *)

Lemma capped_empty : capped empty_adapter.
Proof. intros k. unfold members. simpl. rewrite lookup_empty. simpl. lia. Qed.

(** What [socket.join] does to the members of a room when the identifier
    is not an array. *)
Lemma members_joined_plain socket roomId st k :
  table_ok st → (∀ items, roomId ≠ JArr items) →
  members (joined socket roomId st) k = members st k ∨
  members (joined socket roomId st) k =
    set_add socket (room_members st roomId).
Proof.
  intros Hok Hplain. unfold joined, room_members.
  assert (as_list roomId = [roomId]) as ->.
  { destruct roomId; try done. by destruct (Hplain items). }
  simpl. destruct (key_of roomId) as [k' |] eqn:Hk.
  - change (mkAdapter (rooms st) (sids st) (conns st) (objects st)) with st.
    rewrite members_addAll. case_decide; subst; auto.
  - rewrite members_addAll. case_decide as Hkk; [| left; done].
    right. subst k. f_equal. unfold members. simpl.
    destruct (rooms st !! KRef (objects st)) as [old |] eqn:Hr; [| done].
    pose proof (ok_fresh st Hok _ old Hr). lia.
Qed.

Lemma capped_handle st i st' out :
  table_ok st → capped st → plain i → enabled st i →
  handle i st = Done () st' out → capped st'.
Proof.
  intros Hok Hcap Hplain Hen. destruct i as [c | c r | c k | c]; simpl.
  - intros [= <- _] k. destruct Hen as [Hr _]. rewrite members_addAll.
    case_decide; [| apply Hcap]. unfold members. rewrite Hr. simpl. lia.
  - rewrite on_join_eq. destruct (str_throws r); [done |].
    intros [= <- _] k. case_decide as Hlen; [| apply Hcap].
    destruct (members_joined_plain c r st k Hok) as [-> | ->].
    + intros items ->. done.
    + apply Hcap.
    + pose proof (length_set_add c (room_members st r)). lia.
  - intros ->%on_relay_state. done.
  - intros [= <- _] k. rewrite members_delAll_ok by done.
    pose proof (length_set_delete c (members st k)). specialize (Hcap k). lia.
Qed.

Lemma reachable_plain_capped st : reachable_plain st → capped st.
Proof.
  induction 1 as [| st i st' out Hst IH Hplain Hen Hstep].
  - apply capped_empty.
  - eapply capped_handle; eauto.
    by apply reachable_table_ok, reachable_plain_reachable.
Qed.

(** ** Sequences of joins *)

Lemma run_joins_cons socket rest roomId st :
  run_joins (socket :: rest) roomId st =
  let st1 := if decide (length (occupants st roomId) < 2)
             then addAll socket [KStr roomId] st else st in
  (fst (run_joins rest roomId st1),
   mkEmit socket (verdict (length (occupants st roomId))) [JStr roomId]
     :: snd (run_joins rest roomId st1)).
Proof.
  simpl. rewrite on_join_str. by destruct (run_joins rest roomId _).
Qed.

(** Once a room has two occupants every join is turned away and the
    tables stay as they are. *)
Lemma run_joins_full sockets roomId st :
  2 ≤ length (occupants st roomId) →
  run_joins sockets roomId st =
  (st, map (λ c, mkEmit c "full_room" [JStr roomId]) sockets).
Proof.
  intros Hfull. induction sockets as [| c rest IH]; [done |].
  rewrite run_joins_cons. cbv zeta. rewrite decide_False by lia. rewrite IH.
  cbn [fst snd map].
  destruct (length (occupants st roomId)) as [| [| n]]; [lia | lia | done].
Qed.

(** While the first joiner is alone in the room, its further joins are
    answered [room_joined]; the first join of somebody else fills the
    room, and from then on every join is answered [full_room]. *)
Lemma run_joins_sole n : ∀ st roomId c1 c2 later,
  occupants st roomId = [c1] → c1 ≠ c2 →
  snd (run_joins (replicate n c1 ++ c2 :: later) roomId st) =
    replicate n (mkEmit c1 "room_joined" [JStr roomId]) ++
    mkEmit c2 "room_joined" [JStr roomId] ::
    map (λ c, mkEmit c "full_room" [JStr roomId]) later ∧
  occupants (fst (run_joins (replicate n c1 ++ c2 :: later) roomId st)) roomId
    = [c1; c2].
Proof.
  induction n as [| n IH]; intros st roomId c1 c2 later Hocc Hne;
    cbn [replicate app].
  - rewrite run_joins_cons. rewrite Hocc. cbv zeta.
    rewrite decide_True by (simpl; lia). cbn [length verdict fst snd].
    assert (occupants (addAll c2 [KStr roomId] st) roomId = [c1; c2]) as Hocc'.
    { rewrite occupants_addAll, decide_True by done. rewrite Hocc.
      unfold set_add. rewrite decide_False; [done |].
      by intros ->%list_elem_of_singleton. }
    rewrite run_joins_full by (rewrite Hocc'; simpl; lia). done.
  - rewrite run_joins_cons. rewrite Hocc. cbv zeta.
    rewrite decide_True by (simpl; lia). cbn [length verdict fst snd].
    assert (occupants (addAll c1 [KStr roomId] st) roomId = [c1]) as Hocc'.
    { rewrite occupants_addAll, decide_True by done. rewrite Hocc.
      unfold set_add. rewrite decide_True; [done |].
      by apply list_elem_of_singleton. }
    destruct (IH (addAll c1 [KStr roomId] st) roomId c1 c2 later Hocc' Hne)
      as [-> ->].
    done.
Qed.

Lemma filter_agree {A} (P Q : A → Prop) `{∀ x, Decision (P x)}
    `{∀ x, Decision (Q x)} (l : list A) :
  (∀ x, x ∈ l → (P x ↔ Q x)) → filter P l = filter Q l.
Proof.
  induction l as [| x l IH]; intros Hagree; [done |].
  assert (filter P l = filter Q l) as Hrest.
  { apply IH. intros y Hy. apply Hagree. by right. }
  destruct (decide (P x)) as [HP | HP].
  - rewrite !filter_cons_True; [by rewrite Hrest | | done].
    apply Hagree; [left | done].
  - rewrite !filter_cons_False; [done | | done].
    intros HQ. apply HP, Hagree; [left | done].
Qed.



Lemma recipients_map (name : string) (payload : list JsVal) (l : list string) :
  recipients (map (λ c, mkEmit c name payload) l) = l.
Proof. unfold recipients. rewrite map_map. simpl. apply map_id. Qed.

(** ** Admission *)

(** C1.  A join request for room [roomId] is answered by the occupancy of
    the room.  Occupancy 0: the requester becomes the only occupant and
    [room_created(roomId)] goes to the requester and to nobody else.
    Occupancy 1: the requester is added and [room_joined(roomId)] goes to
    the requester only.  Occupancy 2: the tables are not modified and
    [full_room(roomId)] goes to the requester only.  Hence, for joins to
    a fresh room, the first joiner [c1] gets [room_created] (and
    [room_joined] if it asks again while it is alone), the second joiner
    [c2] gets [room_joined], and every join after that, by anybody, gets
    [full_room], the occupants staying [c1] and [c2]. *)
Theorem join_admission st roomId :
  (∀ socket, length (occupants st roomId) = 0 →
     ∃ st', on_join socket (JStr roomId) st =
              Done () st' [mkEmit socket "room_created" [JStr roomId]] ∧
            occupants st' roomId = [socket] ∧
            ∀ k, k ≠ KStr roomId → rooms st' !! k = rooms st !! k) ∧
  (∀ socket, length (occupants st roomId) = 1 →
     ∃ st', on_join socket (JStr roomId) st =
              Done () st' [mkEmit socket "room_joined" [JStr roomId]] ∧
            occupants st' roomId = set_add socket (occupants st roomId) ∧
            socket ∈ occupants st' roomId ∧
            ∀ k, k ≠ KStr roomId → rooms st' !! k = rooms st !! k) ∧
  (∀ socket, length (occupants st roomId) = 2 →
     on_join socket (JStr roomId) st =
       Done () st [mkEmit socket "full_room" [JStr roomId]]) ∧
  (∀ c1 n c2 later, rooms st !! KStr roomId = None → c1 ≠ c2 →
     snd (run_joins (c1 :: replicate n c1 ++ c2 :: later) roomId st) =
       mkEmit c1 "room_created" [JStr roomId] ::
       replicate n (mkEmit c1 "room_joined" [JStr roomId]) ++
       mkEmit c2 "room_joined" [JStr roomId] ::
       map (λ c, mkEmit c "full_room" [JStr roomId]) later ∧
     ∀ k, occupants
            (fst (run_joins (c1 :: replicate n c1 ++ c2 :: take k later)
                    roomId st)) roomId = [c1; c2]).
Proof.
  split_and!.
  - intros socket Hn. eexists. split; [by apply on_join_created |].
    split; [| intros k Hk; by apply rooms_addAll_ne].
    rewrite occupants_addAll, decide_True by done.
    by destruct (occupants st roomId).
  - intros socket Hn. eexists. split; [by apply on_join_joined |].
    split_and!; [| | intros k Hk; by apply rooms_addAll_ne].
    + by rewrite occupants_addAll, decide_True.
    + rewrite occupants_addAll, decide_True by done.
      apply elem_of_set_add. by left.
  - intros socket Hn. apply on_join_full. lia.
  - intros c1 n c2 later Hfresh Hne.
    assert (occupants st roomId = []) as Hocc
      by (unfold occupants, members; by rewrite Hfresh).
    assert (occupants (addAll c1 [KStr roomId] st) roomId = [c1]) as Hocc'.
    { rewrite occupants_addAll, decide_True by done. by rewrite Hocc. }
    split; [| intros k]; rewrite run_joins_cons; rewrite Hocc; cbv zeta;
      rewrite decide_True by (simpl; lia); cbn [length verdict fst snd].
    + f_equal. by apply run_joins_sole.
    + by apply run_joins_sole.
Qed.

Lemma join_admission_witness :
  (∃ st', on_join "c1" (JStr "42") empty_adapter =
            Done () st' [mkEmit "c1" "room_created" [JStr "42"]] ∧
          occupants st' "42" = ["c1"] ∧
          ∀ k, k ≠ KStr "42" → rooms st' !! k = rooms empty_adapter !! k) ∧
  (∃ st', on_join "c2" (JStr "42") (state_after waiting) =
            Done () st' [mkEmit "c2" "room_joined" [JStr "42"]] ∧
          occupants st' "42" =
            set_add "c2" (occupants (state_after waiting) "42") ∧
          "c2" ∈ occupants st' "42" ∧
          ∀ k, k ≠ KStr "42" →
               rooms st' !! k = rooms (state_after waiting) !! k) ∧
  on_join "c3" (JStr "42") (state_after scenario) =
    Done () (state_after scenario) [mkEmit "c3" "full_room" [JStr "42"]] ∧
  snd (run_joins ("c1" :: replicate 0 "c1" ++ "c2" :: ["c3"; "c1"]) "42"
         empty_adapter) =
    mkEmit "c1" "room_created" [JStr "42"] ::
    replicate 0 (mkEmit "c1" "room_joined" [JStr "42"]) ++
    mkEmit "c2" "room_joined" [JStr "42"] ::
    map (λ c, mkEmit c "full_room" [JStr "42"]) ["c3"; "c1"].
Proof.
  split_and!.
  - apply (proj1 (join_admission empty_adapter "42") "c1"). reflexivity.
  - apply (proj1 (proj2 (join_admission (state_after waiting) "42")) "c2").
    vm_compute. reflexivity.
  - apply (proj1 (proj2 (proj2 (join_admission (state_after scenario) "42")))
             "c3").
    vm_compute. reflexivity.
  - apply (proj2 (proj2 (proj2 (join_admission empty_adapter "42")))
             "c1" 0 "c2" ["c3"; "c1"]); [reflexivity | discriminate].
Defined.

(** ** Relay *)

(** C2.  The relay handlers are meant to reach all the sockets of the
    room except the sender, and here they do not: [c2] has joined the
    room named by the identifier of [c1], then both are the two occupants
    of room 42; what [c1] relays to room 42 reaches nobody, while what
    [c2] relays there reaches [c1]. *)
Theorem relay_misses_peer :
  reachable (state_after eclipsed) ∧
  snd <$> run eclipsed empty_adapter =
    Some [mkEmit "c2" "room_joined" [JStr "c1"];
          mkEmit "c1" "room_created" [JStr "42"];
          mkEmit "c2" "room_joined" [JStr "42"]] ∧
  occupants (state_after eclipsed) "42" = ["c1"; "c2"] ∧
  on_relay "c1" (StartCall (JStr "42")) (state_after eclipsed) =
    Done () (state_after eclipsed) [] ∧
  on_relay "c1"
    (WebrtcOffer (JObj [("roomId", JStr "42"); ("sdp", JStr "v=0")]))
    (state_after eclipsed) = Done () (state_after eclipsed) [] ∧
  on_relay "c2" (StartCall (JStr "42")) (state_after eclipsed) =
    Done () (state_after eclipsed) [mkEmit "c1" "start_call" []].
Proof.
  split; [apply reachable_state_after |]. vm_compute.
  repeat split; reflexivity.
Qed.

(** ** Capacity *)

(** C3, as the spec has it, fails: room 42 is full, a third connection
    asks for it with the identifier wrapped in an array, the lookup of
    the array finds no room, and [socket.join] enters the connection in
    room 42 all the same. *)
Lemma third_occupant_through_array :
  reachable (state_after crowded) ∧
  snd <$> run crowded empty_adapter =
    Some [mkEmit "c1" "room_created" [JStr "42"];
          mkEmit "c2" "room_joined" [JStr "42"];
          mkEmit "c3" "room_created" [JArr [JStr "42"]]] ∧
  occupants (state_after crowded) "42" = ["c1"; "c2"; "c3"] ∧
  ¬ (∀ st, reachable st → ∀ r, length (occupants st r) ≤ 2).
Proof.
  split_and!.
  - apply reachable_state_after.
  - vm_compute. reflexivity.
  - vm_compute. reflexivity.
  - intros Hcap.
    specialize (Hcap (state_after crowded) (reachable_state_after _) "42").
    vm_compute in Hcap. lia.
Qed.

(** C3, amended.  As long as no join request carries an array as its room
    identifier, no room ever has more than two occupants: in every state
    the server reaches through such inputs every room has at most two,
    and so it has after any further such input (a connection, a join, a
    relay, a disconnect).  The identifier of a new connection is taken to
    be fresh, as [enabled] says. *)
Theorem room_capacity st :
  reachable_plain st →
  (∀ r, length (occupants st r) ≤ 2) ∧
  (∀ k, length (members st k) ≤ 2) ∧
  (∀ i st' out, plain i → enabled st i → handle i st = Done () st' out →
     ∀ k, length (members st' k) ≤ 2).
Proof.
  intros Hst. split_and!.
  - intros r. by apply reachable_plain_capped.
  - by apply reachable_plain_capped.
  - intros i st' out Hplain Hen Hstep.
    apply reachable_plain_capped. by eapply reachable_plain_step.
Qed.

Lemma room_capacity_witness :
  (∀ r, length (occupants (state_after scenario) r) ≤ 2) ∧
  (∀ k, length (members (state_after scenario) k) ≤ 2) ∧
  (∀ i st' out, plain i → enabled (state_after scenario) i →
     handle i (state_after scenario) = Done () st' out →
     ∀ k, length (members st' k) ≤ 2).
Proof.
  apply (room_capacity (state_after scenario)).
  apply reachable_plain_state_after. unfold scenario.
  repeat (apply Forall_cons; split; [exact I |]). apply Forall_nil. exact I.
Defined.

(** ** Relays from outside the room *)




(** ** Membership *)

(** C5, as the spec has it, fails: after joining [r1] and then [r2], both
    times with success, the connection is an occupant of both rooms. *)
Lemma member_of_two_rooms :
  reachable (state_after two_rooms) ∧
  snd <$> run two_rooms empty_adapter =
    Some [mkEmit "c" "room_created" [JStr "r1"];
          mkEmit "c" "room_created" [JStr "r2"]] ∧
  occupants (state_after two_rooms) "r1" = ["c"] ∧
  occupants (state_after two_rooms) "r2" = ["c"] ∧
  ¬ (∀ st, reachable st → ∀ c r r',
       c ∈ occupants st r → c ∈ occupants st r' → r = r').
Proof.
  split_and!.
  - apply reachable_state_after.
  - vm_compute. reflexivity.
  - vm_compute. reflexivity.
  - vm_compute. reflexivity.
  - intros Hone.
    assert ("r1" = "r2") as Heq; [| done].
    apply (Hone (state_after two_rooms) (reachable_state_after _) "c").
    + vm_compute. left.
    + vm_compute. left.
Qed.

(** A join takes nobody out of any room. *)
Lemma on_join_keeps st c r :
  ∃ st' out,
    on_join c (JStr r) st = Done () st' out ∧
    ∀ x r', x ∈ occupants st r' → x ∈ occupants st' r'.
Proof.
  do 2 eexists. split; [apply on_join_str |].
  intros x r' Hx. case_decide; [| done].
  rewrite occupants_addAll. case_decide as Hq; [| done].
  subst r'. apply elem_of_set_add. by right.
Qed.

(** C5, amended.  A connection can be in several rooms at a time: a join
    takes nobody out of any room, so a connection that joins [r1] and
    then joins another room [r2], both with success, is an occupant of
    both, next to everybody who was in a room before. *)
Theorem join_keeps_memberships st c r1 r2 :
  (∃ st1 out1,
     on_join c (JStr r1) st = Done () st1 out1 ∧
     ∀ x r, x ∈ occupants st r → x ∈ occupants st1 r) ∧
  (length (occupants st r1) < 2 →
   length (occupants (addAll c [KStr r1] st) r2) < 2 →
   ∃ out1 st2 out2,
     on_join c (JStr r1) st = Done () (addAll c [KStr r1] st) out1 ∧
     on_join c (JStr r2) (addAll c [KStr r1] st) = Done () st2 out2 ∧
     c ∈ occupants st2 r1 ∧
     c ∈ occupants st2 r2 ∧
     ∀ x r, x ∈ occupants st r → x ∈ occupants st2 r).
Proof.
  split; [apply on_join_keeps |]. intros Hlen1 Hlen2.
  assert (∀ s x q q', x ∈ occupants s q' →
            x ∈ occupants (addAll c [KStr q] s) q') as Hkeep.
  { intros s x q q' Hx. rewrite occupants_addAll. case_decide as Hq; [| done].
    subst q'. apply elem_of_set_add. by right. }
  assert (∀ s q, c ∈ occupants (addAll c [KStr q] s) q) as Hin.
  { intros s q. rewrite occupants_addAll, decide_True by done.
    apply elem_of_set_add. by left. }
  do 3 eexists. rewrite !on_join_str, !decide_True by done.
  split_and!; [done | done | | | ].
  - apply Hkeep, Hin.
  - apply Hin.
  - intros x r Hx. by do 2 apply Hkeep.
Qed.

Lemma join_keeps_memberships_witness :
  ∃ out1 st2 out2,
    on_join "c" (JStr "r1") (state_after [InConnect "c"]) =
      Done () (addAll "c" [KStr "r1"] (state_after [InConnect "c"])) out1 ∧
    on_join "c" (JStr "r2")
      (addAll "c" [KStr "r1"] (state_after [InConnect "c"])) =
      Done () st2 out2 ∧
    "c" ∈ occupants st2 "r1" ∧
    "c" ∈ occupants st2 "r2" ∧
    ∀ x r, x ∈ occupants (state_after [InConnect "c"]) r → x ∈ occupants st2 r.
Proof.
  apply (proj2 (join_keeps_memberships (state_after [InConnect "c"])
                  "c" "r1" "r2")).
  - vm_compute. lia.
  - vm_compute. lia.
Defined.

(** ** Disconnect *)

(** C6.  When a connection ends it is taken out of every room it is in,
    nothing is sent, and no room is kept without occupants.  If it was
    the only occupant of a room, the room is gone, and the next join with
    the same identifier is answered [room_created]; if it shared the room
    with one other connection, that connection is the one occupant left. *)
Theorem disconnect_cleanup st c :
  reachable st →
  ∃ st',
    on_disconnect c st = Done () st' [] ∧
    (∀ k, members st' k = set_delete c (members st k)) ∧
    (∀ k, c ∉ members st' k) ∧
    (∀ k, rooms st' !! k ≠ Some []) ∧
    (∀ r, occupants st r = [c] →
       rooms st' !! KStr r = None ∧
       ∀ c', ∃ st'', on_join c' (JStr r) st' =
                     Done () st'' [mkEmit c' "room_created" [JStr r]] ∧
                   occupants st'' r = [c']) ∧
    (∀ r d, d ≠ c → occupants st r ≡ₚ [c; d] →
       rooms st' !! KStr r = Some [d]).
Proof.
  intros Hst. pose proof (reachable_table_ok st Hst) as Hok.
  exists (delAll c st). split_and!.
  - done.
  - intros k. by apply members_delAll_ok.
  - intros k. rewrite members_delAll_ok by done.
    rewrite elem_of_set_delete. by intros [? _].
  - intros k Hr. by apply (ok_nonempty _ (table_ok_delAll c st Hok) k []).
  - intros r Hsole.
    assert (rooms (delAll c st) !! KStr r = None) as Hgone.
    { rewrite rooms_delAll_ok by done. unfold occupants, members in Hsole.
      destruct (rooms st !! KStr r) as [old |]; simpl in *; [| done].
      subst old. by rewrite set_delete_single. }
    split; [done |]. intros c'.
    assert (occupants (delAll c st) r = []) as Hocc
      by (unfold occupants, members; by rewrite Hgone).
    eexists. split; [apply on_join_created; by rewrite Hocc |].
    rewrite occupants_addAll, decide_True by done. by rewrite Hocc.
  - intros r d Hd Hperm. rewrite rooms_delAll_ok by done.
    unfold occupants, members in Hperm.
    destruct (rooms st !! KStr r) as [old |]; simpl in *.
    + by rewrite (set_delete_pair c d old).
    + by apply Permutation_nil_cons in Hperm.
Qed.

Lemma disconnect_cleanup_witness :
  (∃ st', on_disconnect "c1" (state_after waiting) = Done () st' [] ∧
          rooms st' !! KStr "42" = None ∧
          ∃ st'', on_join "c2" (JStr "42") st' =
                    Done () st'' [mkEmit "c2" "room_created" [JStr "42"]] ∧
                  occupants st'' "42" = ["c2"]) ∧
  (∃ st', on_disconnect "c1" (state_after scenario) = Done () st' [] ∧
          rooms st' !! KStr "42" = Some ["c2"] ∧
          "c1" ∉ members st' (KStr "42")).
Proof.
  split.
  - destruct (disconnect_cleanup (state_after waiting) "c1")
      as (st' & Hrun & _ & _ & _ & Hsole & _); [apply reachable_state_after |].
    destruct (Hsole "42") as [Hgone Hnext]; [vm_compute; reflexivity |].
    exists st'. split_and!; [exact Hrun | exact Hgone | apply Hnext].
  - destruct (disconnect_cleanup (state_after scenario) "c1")
      as (st' & Hrun & _ & Hout & _ & _ & Hpair); [apply reachable_state_after |].
    exists st'. split_and!; [exact Hrun | | apply Hout].
    apply Hpair; [discriminate |]. vm_compute. apply Permutation_refl.
Defined.

(** ** Payloads *)

(** C7.  What is relayed is what came in.  For a payload that came off
    the wire and whose room identifier can be read and written into the
    log line, the recipients of a [webrtc_offer] or a [webrtc_answer] get
    the [sdp] property of the inbound event and nothing else; the
    recipients of a [webrtc_ice_candidate] get the inbound event itself;
    the recipients of a [start_call] get the event without a payload.
    Whatever the [sdp] or the event holds is passed on: nothing is
    checked and nothing is changed. *)
Theorem relay_payloads st s :
  (∀ roomId,
     str_throws roomId = false →
     on_start_call s roomId st =
       Done () st (map (λ c, mkEmit c "start_call" [])
                       (broadcast_targets st s roomId))) ∧
  (∀ event room sdp,
     get_prop event "roomId" = Some room → str_throws room = false →
     get_prop event "sdp" = Some sdp → is_json sdp = true →
     on_webrtc_offer s event st =
       Done () st (map (λ c, mkEmit c "webrtc_offer" [sdp])
                       (broadcast_targets st s room)) ∧
     on_webrtc_answer s event st =
       Done () st (map (λ c, mkEmit c "webrtc_answer" [sdp])
                       (broadcast_targets st s room))) ∧
  (∀ event room,
     get_prop event "roomId" = Some room → str_throws room = false →
     is_json event = true →
     on_webrtc_ice_candidate s event st =
       Done () st (map (λ c, mkEmit c "webrtc_ice_candidate" [event])
                       (broadcast_targets st s room))).
Proof.
  split_and!.
  - intros roomId Hstr.
    unfold on_start_call, mbind, M_bind, console_log. by rewrite Hstr.
  - intros event room sdp Hroom Hstr Hsdp Hjson.
    unfold on_webrtc_offer, on_webrtc_answer, mbind, M_bind, prop, console_log.
    rewrite Hroom, Hstr, Hsdp. simpl. by rewrite (wire_json sdp Hjson).
  - intros event room Hroom Hstr Hjson.
    unfold on_webrtc_ice_candidate, mbind, M_bind, prop, console_log.
    rewrite Hroom, Hstr. simpl. by rewrite (wire_json event Hjson).
Qed.

Lemma relay_payloads_witness :
  on_webrtc_offer "c2"
    (JObj [("roomId", JStr "42"); ("sdp", JStr "v=0"); ("type", JStr "offer")])
    (state_after scenario) =
    Done () (state_after scenario) [mkEmit "c1" "webrtc_offer" [JStr "v=0"]] ∧
  on_webrtc_ice_candidate "c1"
    (JObj [("roomId", JStr "42"); ("label", JNum 0); ("candidate", JStr "udp")])
    (state_after scenario) =
    Done () (state_after scenario)
      [mkEmit "c2" "webrtc_ice_candidate"
         [JObj [("roomId", JStr "42"); ("label", JNum 0);
                ("candidate", JStr "udp")]]].
Proof.
  split.
  - apply (proj1 (proj2 (relay_payloads (state_after scenario) "c2"))
             (JObj [("roomId", JStr "42"); ("sdp", JStr "v=0");
                    ("type", JStr "offer")])
             (JStr "42") (JStr "v=0")); reflexivity.
  - apply (proj2 (proj2 (relay_payloads (state_after scenario) "c1"))
             (JObj [("roomId", JStr "42"); ("label", JNum 0);
                    ("candidate", JStr "udp")])
             (JStr "42")); reflexivity.
Defined.

(** ** Port *)

(** C8, as the spec has it, fails for a variable that is provided but
    empty: the server then listens on 3000, not on the value given. *)
Lemma port_of_empty_variable :
  ({["PORT" := ""]} : gmap string string) !! "PORT" = Some "" ∧
  port {["PORT" := ""]} = JNum 3000 ∧
  port {["PORT" := ""]} ≠ JStr "".
Proof. split_and!; [by vm_compute | by vm_compute | by vm_compute]. Qed.

(** C8, amended.  The listening port is the value of the [PORT]
    environment variable when one is provided and is not the empty
    string, and 3000 when the variable is absent or empty; nothing else
    in the environment has a say. *)
Theorem port_selection (env : gmap string string) :
  (∀ v, env !! "PORT" = Some v → v ≠ "" → port env = JStr v) ∧
  (env !! "PORT" = None ∨ env !! "PORT" = Some "" → port env = JNum 3000) ∧
  (∀ env' : gmap string string,
     env' !! "PORT" = env !! "PORT" → port env' = port env).
Proof.
  unfold port, process_env, js_or. split_and!.
  - intros v -> Hv. simpl.
    destruct (String.eqb_spec v ""); [done | done].
  - by intros [-> | ->].
  - by intros env' ->.
Qed.

Lemma port_selection_witness :
  port {["PORT" := "8080"]} = JStr "8080" ∧ port ∅ = JNum 3000.
Proof.
  split.
  - apply (proj1 (port_selection {["PORT" := "8080"]}) "8080").
    + reflexivity.
    + discriminate.
  - apply (proj1 (proj2 (port_selection ∅))). left. reflexivity.
Defined.

(** ** Frame *)

(** C9, as the spec has it, fails in its last clause: membership changes
    not only with a join or a disconnect; a connection that starts is
    entered in the room named by its identifier. *)
Lemma connect_enters_own_room :
  (∃ st', handle (InConnect "c1") empty_adapter = Done () st' [] ∧
          occupants st' "c1" = ["c1"] ∧
          rooms st' ≠ rooms empty_adapter) ∧
  ¬ (∀ i st st' out,
       handle i st = Done () st' out → rooms st' ≠ rooms st →
       (∃ c r, i = InJoin c r) ∨ (∃ c, i = InDisconnect c)).
Proof.
  assert (rooms (addAll "c1" [KStr "c1"] empty_adapter) ≠ rooms empty_adapter)
    as Hchanged.
  { intros Heq.
    assert (rooms (addAll "c1" [KStr "c1"] empty_adapter) !! KStr "c1" =
            rooms empty_adapter !! KStr "c1") as Hlook by (by rewrite Heq).
    rewrite rooms_addAll_eq in Hlook. simpl in Hlook.
    by rewrite lookup_empty in Hlook. }
  split.
  - eexists. split_and!; [reflexivity | by vm_compute | exact Hchanged].
  - intros Honly.
    destruct (Honly (InConnect "c1") empty_adapter _ [] eq_refl Hchanged)
      as [(c & r & [=]) | (c & [=])].
Qed.

(** C9, amended.  A relay leaves the tables alone: whichever of the four
    messages it is and whoever sends it, the state after the relay is the
    state before it, and a relay whose room can be read and written into
    the log line does finish.  An input that changes the tables is
    therefore never a relay, but a join or the start or end of a
    connection. *)
Theorem relay_frame st s k :
  (∀ st' out, on_relay s k st = Done () st' out → st' = st) ∧
  (relay_throws k = false → ∃ out, on_relay s k st = Done () st out) ∧
  (∀ i st' out, handle i st = Done () st' out → st' ≠ st →
     (∃ c, i = InConnect c) ∨ (∃ c r, i = InJoin c r) ∨
     (∃ c, i = InDisconnect c)).
Proof.
  split_and!.
  - intros st' out. apply on_relay_state.
  - intros (room & Hroom & Hstr)%relay_throws_false.
    destruct (on_relay_eq s k st room Hroom Hstr) as (payload & Hrun & _). eauto.
  - intros i st' out Hstep Hchanged.
    destruct i as [c | c r | c k' | c]; eauto 6.
    apply on_relay_state in Hstep. done.
Qed.

Lemma relay_frame_witness :
  ∃ out, on_relay "c1" (StartCall (JStr "42")) (state_after scenario) =
         Done () (state_after scenario) out.
Proof.
  apply (proj1 (proj2 (relay_frame (state_after scenario) "c1"
                         (StartCall (JStr "42"))))).
  reflexivity.
Defined.

(** ** Joining again *)

(** C10.  When the only occupant of a room asks to join that room again,
    the occupancy test counts the requester itself: the answer is
    [room_joined], not [room_created], and the room table is what it was
    before; in a state the server can reach nothing at all changes. *)
Theorem rejoin_sole_occupant st c r :
  occupants st r = [c] →
  ∃ st',
    on_join c (JStr r) st = Done () st' [mkEmit c "room_joined" [JStr r]] ∧
    rooms st' = rooms st ∧
    occupants st' r = [c] ∧
    (reachable st → st' = st).
Proof.
  intros Hsole. exists (addAll c [KStr r] st).
  assert (c ∈ members st (KStr r)) as Hin by (fold (occupants st r); rewrite Hsole; left).
  pose proof (rooms_addAll_member c (KStr r) st Hin) as Hrooms.
  split_and!.
  - apply on_join_joined. by rewrite Hsole.
  - done.
  - unfold occupants, members. rewrite Hrooms. exact Hsole.
  - intros Hst. pose proof (reachable_table_ok st Hst) as Hok.
    unfold members in Hin.
    destruct (rooms st !! KStr r) as [old |] eqn:Hr; simpl in Hin;
      [| by apply not_elem_of_nil in Hin].
    destruct (ok_recorded st Hok _ old c Hr Hin) as (l & Hl & Hrl).
    apply adapter_eq; [done | | |].
    + apply map_eq. intros c'. destruct (decide (c' = c)) as [-> | Hne].
      * rewrite sids_addAll_eq, Hl. simpl. unfold set_add.
        by rewrite decide_True.
      * by rewrite sids_addAll_ne.
    + rewrite addAll_single, ensure_sid_connected; [done |].
      unfold connected. by rewrite Hl.
    + rewrite addAll_single, ensure_sid_connected; [done |].
      unfold connected. by rewrite Hl.
Qed.

Lemma rejoin_sole_occupant_witness :
  ∃ st',
    on_join "c1" (JStr "42")
      (state_after [InConnect "c1"; InJoin "c1" (JStr "42")]) =
      Done () st' [mkEmit "c1" "room_joined" [JStr "42"]] ∧
    rooms st' = rooms (state_after [InConnect "c1"; InJoin "c1" (JStr "42")]) ∧
    occupants st' "42" = ["c1"] ∧
    (reachable (state_after [InConnect "c1"; InJoin "c1" (JStr "42")]) →
     st' = state_after [InConnect "c1"; InJoin "c1" (JStr "42")]).
Proof.
  apply (rejoin_sole_occupant
           (state_after [InConnect "c1"; InJoin "c1" (JStr "42")]) "c1" "42").
  vm_compute. reflexivity.
Defined.

(** * Further properties of the handlers *)

Lemma length_filter_weaker {A} (P Q : A → Prop) `{∀ x, Decision (P x)}
    `{∀ x, Decision (Q x)} (l : list A) :
  (∀ x, P x → Q x) → length (filter P l) ≤ length (filter Q l).
Proof.
  intros HPQ. induction l as [| x l IH]; [done |].
  destruct (decide (P x)) as [HP | HP].
  - rewrite !filter_cons_True by auto. simpl. lia.
  - rewrite (filter_cons_False P) by done.
    destruct (decide (Q x)).
    + rewrite filter_cons_True by done. simpl. lia.
    + by rewrite filter_cons_False.
Qed.

Lemma has_key_elem key (fields : list (string * JsVal)) :
  has_key key fields = true ↔ key ∈ fields.*1.
Proof.
  induction fields as [| [k v] fields IH]; simpl.
  - split; [done | by intros ?%not_elem_of_nil].
  - rewrite orb_true_iff, IH, elem_of_cons.
    destruct (String.eqb_spec key k); split; intros [? | ?]; auto; done.
Qed.

(** ** Malformed payloads *)

(** X1.  A relay throws exactly when its room identifier cannot be read
    or cannot be written into the log line: the payload of a
    [webrtc_offer], [webrtc_answer] or [webrtc_ice_candidate] is
    [undefined] or [null], or the room identifier (the payload itself for
    a [start_call], its [roomId] for the others) is an object with an own
    property [toString], or an array holding such a value.  In every
    other case the relay finishes and leaves the state as it is. *)
Theorem relay_throws_iff s k st :
  (on_relay s k st = TypeError ↔
   (∃ event,
      (k = WebrtcOffer event ∨ k = WebrtcAnswer event ∨
       k = WebrtcIceCandidate event) ∧
      (event = JUndefined ∨ event = JNull)) ∨
   (∃ room, relay_room k = Some room ∧ str_throws room = true)) ∧
  (on_relay s k st ≠ TypeError ↔ ∃ out, on_relay s k st = Done () st out) ∧
  (∀ fields, str_throws (JObj fields) = true ↔ "toString" ∈ fields.*1) ∧
  (∀ items, str_throws (JArr items) = true ↔
            ∃ x, x ∈ items ∧ str_throws x = true) ∧
  (∀ v, (∀ items, v ≠ JArr items) → (∀ fields, v ≠ JObj fields) →
        str_throws v = false).
Proof.
  assert (relay_throws k = true ↔
          (∃ event,
             (k = WebrtcOffer event ∨ k = WebrtcAnswer event ∨
              k = WebrtcIceCandidate event) ∧
             (event = JUndefined ∨ event = JNull)) ∨
          (∃ room, relay_room k = Some room ∧ str_throws room = true))
    as Hthrows.
  { unfold relay_throws. split.
    - destruct (relay_room k) as [room |] eqn:Hroom; [eauto |]. intros _. left.
      destruct k as [r | event | event | event]; simpl in Hroom; [done | ..];
        destruct event; try done; eauto 7.
    - intros [(event & Hk & Hev) | (room & -> & Hstr)]; [| done].
      destruct Hev as [-> | ->]; by destruct Hk as [-> | [-> | ->]]. }
  split_and!.
  - rewrite <- Hthrows. destruct (relay_throws k) eqn:Hk.
    + by rewrite on_relay_throws.
    + destruct (relay_throws_false k Hk) as (room & Hroom & Hstr).
      destruct (on_relay_eq s k st room Hroom Hstr) as (payload & -> & _).
      split; discriminate.
  - destruct (relay_throws k) eqn:Hk.
    + rewrite on_relay_throws by done. split; [done | by intros [out ?]].
    + destruct (relay_throws_false k Hk) as (room & Hroom & Hstr).
      destruct (on_relay_eq s k st room Hroom Hstr) as (payload & -> & _).
      split; [eauto | discriminate].
  - intros fields. simpl. apply has_key_elem.
  - intros items. simpl. rewrite existsb_exists.
    split; intros (x & Hx & ?); exists x; split; try done;
      by apply list_elem_of_In.
  - intros v Harr Hobj. destruct v; try done.
    + by destruct (Harr items).
    + by destruct (Hobj fields).
Qed.

(** X2.  A [webrtc_offer] or [webrtc_answer] passes on the [sdp] property
    of its payload and nothing else: two payloads with the same [roomId]
    and the same [sdp] are handled alike, whatever else they hold; and a
    payload object without an [sdp] property is relayed all the same
    (provided its room identifier can be written into the log line), the
    recipients getting [null]. *)
Theorem relay_sdp_only s st :
  (∀ e1 e2,
     get_prop e1 "roomId" = get_prop e2 "roomId" →
     get_prop e1 "sdp" = get_prop e2 "sdp" →
     on_webrtc_offer s e1 st = on_webrtc_offer s e2 st ∧
     on_webrtc_answer s e1 st = on_webrtc_answer s e2 st) ∧
  (∀ fields,
     "sdp" ∉ fields.*1 → str_throws (assoc "roomId" fields) = false →
     on_webrtc_offer s (JObj fields) st =
       Done () st (map (λ c, mkEmit c "webrtc_offer" [JNull])
                       (broadcast_targets st s (assoc "roomId" fields))) ∧
     on_webrtc_answer s (JObj fields) st =
       Done () st (map (λ c, mkEmit c "webrtc_answer" [JNull])
                       (broadcast_targets st s (assoc "roomId" fields)))).
Proof.
  split.
  - intros e1 e2 Hroom Hsdp.
    unfold on_webrtc_offer, on_webrtc_answer, mbind, M_bind, prop.
    by rewrite Hroom, Hsdp.
  - intros fields Hsdp Hstr.
    unfold on_webrtc_offer, on_webrtc_answer, mbind, M_bind, prop, console_log.
    simpl. rewrite Hstr. simpl.
    by rewrite (assoc_absent "sdp" fields Hsdp).
Qed.

Lemma relay_sdp_only_witness :
  (on_webrtc_offer "c2"
     (JObj [("roomId", JStr "42"); ("sdp", JStr "v=0"); ("type", JStr "offer")])
     (state_after scenario) =
   on_webrtc_offer "c2"
     (JObj [("sdp", JStr "v=0"); ("roomId", JStr "42")])
     (state_after scenario)) ∧
  on_webrtc_answer "c2" (JObj [("roomId", JStr "42")]) (state_after scenario) =
    Done () (state_after scenario) [mkEmit "c1" "webrtc_answer" [JNull]].
Proof.
  split.
  - apply (proj1 (relay_sdp_only "c2" (state_after scenario))); reflexivity.
  - apply (proj2 (relay_sdp_only "c2" (state_after scenario))
             [("roomId", JStr "42")]); [| reflexivity].
    simpl. intros Hin. apply list_elem_of_singleton in Hin. discriminate.
Defined.

(** ** Relays that reach nobody, and how many a relay can reach *)

(** X3.  A relay to a room that does not exist, or sent by the only
    occupant of the room it names, finishes without sending anything. *)
Theorem relay_lone s k st r :
  relay_room k = Some (JStr r) →
  occupants st r = [] ∨ occupants st r = [s] →
  on_relay s k st = Done () st [].
Proof.
  intros Hroom Hocc.
  destruct (on_relay_eq s k st (JStr r) Hroom eq_refl) as (payload & -> & _).
  rewrite broadcast_targets_str.
  destruct Hocc as [-> | ->]; [done |]. simpl. unfold serve.
  rewrite decide_True; [done |]. by left.
Qed.

Lemma relay_lone_witness :
  on_relay "c1" (StartCall (JStr "42")) (state_after waiting) =
    Done () (state_after waiting) [] ∧
  on_relay "c2" (WebrtcIceCandidate (JObj [("roomId", JStr "7")]))
    (state_after waiting) = Done () (state_after waiting) [].
Proof.
  split.
  - apply (relay_lone "c1" (StartCall (JStr "42")) (state_after waiting) "42");
      [reflexivity | right; vm_compute; reflexivity].
  - apply (relay_lone "c2" (WebrtcIceCandidate (JObj [("roomId", JStr "7")]))
             (state_after waiting) "7");
      [reflexivity | left; vm_compute; reflexivity].
Defined.

Lemma NoDup_broadcast_targets st s room :
  table_ok st → NoDup (broadcast_targets st s room).
Proof.
  intros Hok. unfold broadcast_targets. destruct (as_list room) as [| r rs].
  - apply NoDup_filter, Hok.
  - apply NoDup_foldl_serve, NoDup_nil_2.
Qed.

(** X4.  In a state the server can reach a relay sends no connection the
    message twice and never sends it back to the sender, whatever the
    room identifier is.  If moreover no join request has carried an array
    and the relay names one room (its identifier is not an array), it
    reaches at most two connections, and at most one when the sender is
    an occupant of that room. *)
Theorem relay_fanout st s k room :
  reachable st → relay_room k = Some room → str_throws room = false →
  ∃ out,
    on_relay s k st = Done () st out ∧
    NoDup (recipients out) ∧
    (s ∉ recipients out) ∧
    (reachable_plain st → (∀ items, room ≠ JArr items) →
     length out ≤ 2 ∧ (s ∈ room_members st room → length out ≤ 1)).
Proof.
  intros Hst Hroom Hstr. pose proof (reachable_table_ok st Hst) as Hok.
  destruct (on_relay_eq s k st room Hroom Hstr) as (payload & Hrun & _).
  eexists. split; [exact Hrun |]. rewrite recipients_map, length_map.
  split_and!.
  - by apply NoDup_broadcast_targets.
  - intros Hin%broadcast_targets_left_out. apply Hin. by left.
  - intros Hplain Hone.
    assert (broadcast_targets st s room =
            filter (λ c, ¬ left_out st s c) (room_members st room)) as ->.
    { unfold broadcast_targets.
      assert (as_list room = [room]) as ->.
      { destruct room; try done. by destruct (Hone items). }
      simpl. rewrite app_nil_r. rewrite foldl_serve_NoDup; [done |].
      unfold room_members. destruct (key_of room); [| apply NoDup_nil_2].
      by apply table_ok_members. }
    assert (length (room_members st room) ≤ 2) as Hcap.
    { unfold room_members. destruct (key_of room); [| simpl; lia].
      by apply reachable_plain_capped. }
    split.
    + pose proof (length_filter (λ c, ¬ left_out st s c) (room_members st room)).
      lia.
    + intros Hs.
      pose proof (length_filter_weaker (λ c, ¬ left_out st s c) (λ c, c ≠ s)
                    (room_members st room)) as Hle.
      pose proof (length_set_delete_elem s (room_members st room) Hs) as Hlt.
      unfold set_delete in Hlt.
      assert (∀ x, ¬ left_out st s x → x ≠ s) as Himp.
      { intros x Hx ->. apply Hx. by left. }
      specialize (Hle Himp). lia.
Qed.

Lemma relay_fanout_witness :
  ∃ out,
    on_relay "c1" (StartCall (JStr "42")) (state_after scenario) =
      Done () (state_after scenario) out ∧
    NoDup (recipients out) ∧
    ("c1" ∉ recipients out) ∧
    length out ≤ 1.
Proof.
  destruct (relay_fanout (state_after scenario) "c1" (StartCall (JStr "42"))
              (JStr "42"))
    as (out & Hrun & Hnd & Hself & Hbound).
  - apply reachable_state_after.
  - reflexivity.
  - reflexivity.
  - exists out. split_and!; [exact Hrun | exact Hnd | exact Hself |].
    apply Hbound.
    + apply reachable_plain_state_after. unfold scenario.
      repeat (apply Forall_cons; split; [exact I |]). apply Forall_nil. exact I.
    + discriminate.
    + vm_compute. left.
Defined.

(** ** The room table in reachable states *)

(** X5.  In every state the server can reach, a room that is in the table
    has an occupant, lists no occupant twice, and holds live connections
    only. *)
Theorem rooms_wellformed st :
  reachable st →
  ∀ k old, rooms st !! k = Some old →
    old ≠ [] ∧ NoDup old ∧ ∀ c, c ∈ old → connected st c.
Proof.
  intros Hst k old Hr. pose proof (reachable_table_ok st Hst) as Hok.
  split_and!.
  - by eapply ok_nonempty.
  - by eapply ok_nodup.
  - intros c Hc. apply (members_connected st k c Hok).
    unfold members. by rewrite Hr.
Qed.

Lemma rooms_wellformed_witness :
  ["c1"; "c2"] ≠ [] ∧ NoDup ["c1"; "c2"] ∧
  ∀ c, c ∈ ["c1"; "c2"] → connected (state_after scenario) c.
Proof.
  apply (rooms_wellformed (state_after scenario)) with (k := KStr "42").
  - apply reachable_state_after.
  - vm_compute. reflexivity.
Defined.

Lemma elem_of_concat {A} (x : A) (ls : list (list A)) :
  x ∈ concat ls ↔ ∃ l, x ∈ l ∧ l ∈ ls.
Proof.
  induction ls as [| l ls IH]; simpl.
  - split; [by intros ?%not_elem_of_nil | by intros (? & _ & ?%not_elem_of_nil)].
  - rewrite elem_of_app, IH. split.
    + intros [? | (l' & ? & ?)]; [exists l | exists l']; split; try done;
        [left | by right].
    + intros (l' & Hx & [-> | ?]%elem_of_cons); [by left | right; eauto].
Qed.

Lemma connected_foldl_add_room id keys c : ∀ a,
  connected a id →
  (connected (foldl (λ acc room, add_room id room acc) a keys) c ↔
   connected a c).
Proof.
  induction keys as [| k keys IH]; intros a Hid; simpl; [done |].
  rewrite IH by (by apply connected_add_room).
  by apply connected_add_room.
Qed.

Lemma connected_joined socket roomId st c :
  connected st c → connected (joined socket roomId st) c.
Proof.
  intros Hc. unfold joined.
  destruct (alloc_keys (as_list roomId) (objects st)) as [keys next].
  unfold addAll. rewrite connected_foldl_add_room by apply connected_ensure_sid.
  unfold connected in *. rewrite sids_ensure_sid. case_decide; [eauto | done].
Qed.

(** X6.  Whatever input the server handles in a reachable state, every
    message it sends goes to a connection that is live before the input
    and still live after it; the start and the end of a connection send
    nothing at all. *)
Theorem recipients_live st i st' out :
  reachable st → enabled st i → handle i st = Done () st' out →
  (∀ e, e ∈ out → connected st (recipient e) ∧ connected st' (recipient e)) ∧
  ((∃ c, i = InConnect c ∨ i = InDisconnect c) → out = []).
Proof.
  intros Hst Hen Hstep. pose proof (reachable_table_ok st Hst) as Hok.
  destruct i as [c | c r | c k | c]; simpl in *.
  - injection Hstep as _ <-. split; [| done]. by intros e ?%not_elem_of_nil.
  - rewrite on_join_eq in Hstep. destruct (str_throws r); [done |].
    injection Hstep as <- <-. split; [| by intros (? & [[=] | [=]])].
    intros e ->%list_elem_of_singleton. simpl. split; [done |].
    case_decide; [by apply connected_joined | done].
  - split; [| by intros (? & [[=] | [=]])].
    destruct (relay_throws k) eqn:Hk; [by rewrite on_relay_throws in Hstep |].
    destruct (relay_throws_false k Hk) as (room & Hroom & Hstr).
    destruct (on_relay_eq c k st room Hroom Hstr) as (payload & Hrun & _).
    rewrite Hrun in Hstep. injection Hstep as <- <-.
    intros e (x & -> & Hx)%list_elem_of_fmap. simpl.
    assert (connected st x) as Hlive; [| done].
    unfold broadcast_targets in Hx. destruct (as_list room) as [| r rs].
    + apply list_elem_of_filter in Hx as [_ Hx]. by apply (ok_conns st Hok).
    + apply elem_of_foldl_serve in Hx as [?%not_elem_of_nil | [Hx _]]; [done |].
      apply elem_of_concat in Hx as (l & Hxl & Hl).
      apply list_elem_of_fmap in Hl as (v & -> & _).
      unfold room_members in Hxl.
      destruct (key_of v); [| by apply not_elem_of_nil in Hxl].
      by eapply members_connected.
  - injection Hstep as _ <-. split; [| done]. by intros e ?%not_elem_of_nil.
Qed.

Lemma recipients_live_witness :
  connected (state_after scenario) "c1".
Proof.
  apply (recipients_live (state_after scenario)
           (InRelay "c2" (StartCall (JStr "42")))
           (state_after scenario) [mkEmit "c1" "start_call" []])
    with (e := mkEmit "c1" "start_call" []).
  - apply reachable_state_after.
  - vm_compute. eauto.
  - vm_compute. reflexivity.
  - left.
Defined.

(** ** The answer to a join *)



(** ** A room after a departure *)

(** X8.  When one of the two occupants of a room disconnects, the room is
    open again: the next connection to ask for it is answered
    [room_joined] and shares the room with the one that stayed. *)
Theorem join_after_departure st c d r e :
  reachable st → d ≠ c → occupants st r ≡ₚ [c; d] → e ≠ d →
  ∃ st1 st2,
    on_disconnect c st = Done () st1 [] ∧
    on_join e (JStr r) st1 = Done () st2 [mkEmit e "room_joined" [JStr r]] ∧
    occupants st2 r = [d; e].
Proof.
  intros Hst Hdc Hperm Hed. pose proof (reachable_table_ok st Hst) as Hok.
  assert (occupants (delAll c st) r = [d]) as Hocc.
  { rewrite occupants_delAll_ok by done. by apply set_delete_pair. }
  do 2 eexists. split_and!.
  - done.
  - apply on_join_joined. by rewrite Hocc.
  - rewrite occupants_addAll, decide_True by done. rewrite Hocc.
    unfold set_add. rewrite decide_False; [done |].
    by intros ->%list_elem_of_singleton.
Qed.

Lemma join_after_departure_witness :
  ∃ st1 st2,
    on_disconnect "c1" (state_after scenario) = Done () st1 [] ∧
    on_join "c3" (JStr "42") st1 =
      Done () st2 [mkEmit "c3" "room_joined" [JStr "42"]] ∧
    occupants st2 "42" = ["c2"; "c3"].
Proof.
  apply (join_after_departure (state_after scenario) "c1" "c2" "42" "c3").
  - apply reachable_state_after.
  - discriminate.
  - vm_compute. apply Permutation_refl.
  - discriminate.
Defined.

(** ** A whole session *)

Lemma run_app inputs1 inputs2 st st1 st2 out1 out2 :
  run inputs1 st = Some (st1, out1) → run inputs2 st1 = Some (st2, out2) →
  run (inputs1 ++ inputs2) st = Some (st2, out1 ++ out2).
Proof.
  revert st out1. induction inputs1 as [| i rest IH]; intros st out1; simpl.
  - by intros [= <- <-].
  - case_decide; [| done].
    destruct (handle i st) as [[] sti outi |]; [| done].
    destruct (run rest sti) as [[str outr] |] eqn:Hrest; [| done].
    intros [= <- <-] Hrun2. rewrite (IH _ _ Hrest Hrun2).
    by rewrite app_assoc.
Qed.

Lemma del_members_set_add c (o : option (list string)) :
  del_members c (Some (set_add c (default [] o))) = del_members c o.
Proof.
  simpl. rewrite set_delete_set_add. by destruct o.
Qed.

Lemma foldl_add_room_undone c keys : ∀ a,
  (∀ k, del_members c
          (rooms (foldl (λ acc room, add_room c room acc) a keys) !! k) =
        del_members c (rooms a !! k)) ∧
  (∀ c', c' ≠ c →
     sids (foldl (λ acc room, add_room c room acc) a keys) !! c' =
     sids a !! c') ∧
  conns (foldl (λ acc room, add_room c room acc) a keys) = conns a.
Proof.
  induction keys as [| k keys IH]; intros a; simpl; [done |].
  destruct (IH (add_room c k a)) as (Hrooms & Hsids & Hconns).
  split_and!.
  - intros k'. rewrite Hrooms. destruct (decide (k' = k)) as [-> | Hne].
    + rewrite rooms_add_room_eq. unfold members. apply del_members_set_add.
    + by rewrite rooms_add_room_ne.
  - intros c' Hc'. rewrite Hsids by done. by apply sids_add_room_ne.
  - by rewrite Hconns.
Qed.

(** What a connection's own joins add to the tables is what its
    departure takes away. *)
Lemma joined_undone c roomId st1 :
  connected st1 c →
  (∀ k, del_members c (rooms (joined c roomId st1) !! k) =
        del_members c (rooms st1 !! k)) ∧
  (∀ c', c' ≠ c → sids (joined c roomId st1) !! c' = sids st1 !! c') ∧
  conns (joined c roomId st1) = conns st1.
Proof.
  intros Hlive. unfold joined.
  destruct (alloc_keys (as_list roomId) (objects st1)) as [keys next].
  unfold addAll. rewrite ensure_sid_connected by done.
  apply (foldl_add_room_undone c keys
           (mkAdapter (rooms st1) (sids st1) (conns st1) next)).
Qed.

(** The events of a session change the tables only by what the
    connection's departure will undo. *)
Lemma session_events_undone c st events : ∀ st1,
  table_ok st1 → connected st1 c →
  (∀ k, del_members c (rooms st1 !! k) = rooms st !! k) →
  (∀ c', c' ≠ c → sids st1 !! c' = sids st !! c') →
  Forall quiet events →
  ∃ st2 out,
    run (map (session_input c) events) st1 = Some (st2, out) ∧
    table_ok st2 ∧ connected st2 c ∧ conns st2 = conns st1 ∧
    (∀ k, del_members c (rooms st2 !! k) = rooms st !! k) ∧
    (∀ c', c' ≠ c → sids st2 !! c' = sids st !! c').
Proof.
  induction events as [| e events IH]; intros st1 Hok Hlive Hrooms Hsids Hquiet.
  - exists st1, []. done.
  - apply Forall_cons in Hquiet as [He Hquiet]. simpl.
    destruct e as [r | k]; simpl in *.
    + rewrite decide_True by done. rewrite on_join_eq, He.
      set (st1' := if decide (length (room_members st1 r) < 2)
                   then joined c r st1 else st1).
      destruct (joined_undone c r st1 Hlive) as (Hjr & Hjs & Hjc).
      destruct (IH st1') as (st2 & out & -> & Hok2 & Hlive2 & Hc2 & Hrest).
      * unfold st1'. case_decide; [by apply table_ok_joined | done].
      * unfold st1'. case_decide; [by apply connected_joined | done].
      * intros k. unfold st1'. case_decide; [| done]. by rewrite Hjr.
      * intros c' Hc'. unfold st1'. case_decide; [| by apply Hsids].
        rewrite Hjs by done. by apply Hsids.
      * done.
      * do 2 eexists. split; [done |]. split_and!; try done; try apply Hrest.
        rewrite Hc2. unfold st1'. by case_decide.
    + rewrite decide_True by done.
      destruct (relay_throws_false k He) as (room & Hroom & Hstr).
      destruct (on_relay_eq c k st1 room Hroom Hstr) as (payload & -> & _).
      destruct (IH st1) as (st2 & out & -> & Hrest); eauto.
Qed.

(** X9.  A session leaves no trace.  From a state the server can reach, a
    new connection connects, sends any join requests and relays, whatever
    their payloads as long as no handler throws, and disconnects, nothing
    else happening meanwhile: the room table and the connection table end
    exactly as they began. *)
Theorem session_leaves_no_trace st c events :
  reachable st → enabled st (InConnect c) → Forall quiet events →
  ∃ st' out,
    run (session c events) st = Some (st', out) ∧
    rooms st' = rooms st ∧ sids st' = sids st ∧ conns st' = conns st.
Proof.
  intros Hst [Hroom Hsid] Hquiet. pose proof (reachable_table_ok st Hst) as Hok.
  assert (∀ k, c ∉ members st k) as Hout.
  { intros k Hc. apply (members_connected st k c Hok) in Hc as [l Hl].
    congruence. }
  assert (∀ k, del_members c (rooms st !! k) = rooms st !! k) as Hsame.
  { intros k. specialize (Hout k). unfold members in Hout.
    destruct (rooms st !! k) as [old |] eqn:Hr; simpl in *; [| done].
    rewrite set_delete_not_elem by done.
    pose proof (ok_nonempty st Hok k old Hr). by destruct old. }
  assert (c ∉ conns st) as Hnew.
  { rewrite (ok_conns st Hok). unfold connected. rewrite Hsid. by intros [? ?]. }
  assert (conns (addAll c [KStr c] st) = conns st ++ [c]) as Hconns.
  { rewrite addAll_single. unfold ensure_sid. by rewrite Hsid. }
  destruct (session_events_undone c st events (addAll c [KStr c] st))
    as (st2 & out & Hrun & Hok2 & Hlive & Hc2 & Hrooms & Hsids).
  - apply table_ok_addAll; [done |].
    intros n [[=] | ?%not_elem_of_nil]%elem_of_cons. done.
  - apply connected_addAll.
  - intros k. destruct (decide (k = KStr c)) as [-> | Hne].
    + rewrite rooms_addAll_eq. unfold members.
      rewrite del_members_set_add. apply Hsame.
    + rewrite rooms_addAll_ne by done. apply Hsame.
  - intros c' Hc'. by apply sids_addAll_ne.
  - done.
  - destruct Hlive as [l Hl].
    assert (run [InDisconnect c] st2 = Some (delAll c st2, [])) as Hend.
    { simpl. rewrite decide_True; [done |]. unfold connected. by rewrite Hl. }
    exists (delAll c st2), ([] ++ out ++ []). split_and!.
    + unfold session.
      change (InConnect c :: map (session_input c) events ++ [InDisconnect c])
        with ([InConnect c] ++ map (session_input c) events ++ [InDisconnect c]).
      eapply run_app; [| eapply run_app; [exact Hrun | exact Hend]].
      simpl. rewrite decide_True by done. done.
    + apply map_eq. intros k. rewrite rooms_delAll_ok by done. apply Hrooms.
    + apply map_eq. intros c'. rewrite sids_delAll.
      case_decide as Hc'; [by subst | by apply Hsids].
    + unfold delAll. rewrite Hl. simpl. rewrite Hc2, Hconns.
      by apply set_delete_app_single.
Qed.

Lemma session_leaves_no_trace_witness :
  ∃ st' out,
    run (session "c4" [SJoin (JStr "42"); SJoin (JArr [JStr "42"; JObj []]);
                       SRelay (StartCall (JStr "42"));
                       SRelay (WebrtcOffer (JObj [("roomId", JNum 7)]))])
      (state_after scenario) = Some (st', out) ∧
    rooms st' = rooms (state_after scenario) ∧
    sids st' = sids (state_after scenario) ∧
    conns st' = conns (state_after scenario).
Proof.
  apply (session_leaves_no_trace (state_after scenario) "c4").
  - apply reachable_state_after.
  - vm_compute. split; reflexivity.
  - repeat (apply Forall_cons; split; [reflexivity |]). apply Forall_nil. exact I.
Defined.

(** ** Two peers in a room *)

(** X10.  Once two different connections have joined a fresh room, one
    after the other, whatever either of them relays to that room reaches
    the other one, once, and nobody else, provided neither of them sits
    in the room named by the identifier of the other and the fresh room
    is not named by the identifier of either. *)
Theorem paired_relay st r c1 c2 k :
  rooms st !! KStr r = None → c1 ≠ c2 → r ≠ c1 → r ≠ c2 →
  c2 ∉ occupants st c1 → c1 ∉ occupants st c2 →
  relay_room k = Some (JStr r) →
  ∃ st2 out1 out2,
    run_joins [c1; c2] r st =
      (st2, [mkEmit c1 "room_created" [JStr r];
             mkEmit c2 "room_joined" [JStr r]]) ∧
    on_relay c1 k st2 = Done () st2 out1 ∧ recipients out1 = [c2] ∧
    on_relay c2 k st2 = Done () st2 out2 ∧ recipients out2 = [c1].
Proof.
  intros Hfresh Hne Hr1 Hr2 H21 H12 Hroom.
  assert (occupants st r = []) as Hocc
    by (unfold occupants, members; by rewrite Hfresh).
  set (st1 := addAll c1 [KStr r] st).
  set (st2 := addAll c2 [KStr r] st1).
  assert (occupants st1 r = [c1]) as Hocc1.
  { unfold st1. rewrite occupants_addAll, decide_True by done. by rewrite Hocc. }
  assert (occupants st2 r = [c1; c2]) as Hocc2.
  { unfold st2. rewrite occupants_addAll, decide_True by done. rewrite Hocc1.
    unfold set_add. rewrite decide_False; [done |].
    by intros ->%list_elem_of_singleton. }
  assert (∀ q, q ≠ r → occupants st2 q = occupants st q) as Hother.
  { intros q Hq. unfold st2, st1.
    by rewrite !occupants_addAll, !decide_False. }
  exists st2.
  destruct (on_relay_eq c1 k st2 (JStr r) Hroom eq_refl) as (p1 & Hrun1 & _).
  destruct (on_relay_eq c2 k st2 (JStr r) Hroom eq_refl) as (p2 & Hrun2 & _).
  do 2 eexists. split_and!; [| exact Hrun1 | | exact Hrun2 |].
  - rewrite run_joins_cons, Hocc. cbv zeta.
    rewrite decide_True by (simpl; lia). cbn [length verdict]. fold st1.
    rewrite run_joins_cons, Hocc1. cbv zeta.
    rewrite decide_True by (simpl; lia). cbn [length verdict]. fold st2.
    done.
  - rewrite recipients_map, broadcast_targets_str, Hocc2.
    cbn [foldl]. unfold serve.
    rewrite (decide_True (P := left_out st2 c1 c1)) by (by left).
    rewrite (decide_False (P := left_out st2 c1 c2)); [done |].
    unfold left_out. rewrite Hother by done. intros [? | ?]; done.
  - rewrite recipients_map, broadcast_targets_str, Hocc2.
    cbn [foldl]. unfold serve.
    rewrite (decide_False (P := left_out st2 c2 c1)).
    + rewrite (decide_True (P := left_out st2 c2 c2)) by (by left). done.
    + unfold left_out. rewrite Hother by done. intros [? | ?]; done.
Qed.

Lemma paired_relay_witness :
  ∃ st2 out1 out2,
    run_joins ["c1"; "c2"] "42" (state_after [InConnect "c1"; InConnect "c2"]) =
      (st2, [mkEmit "c1" "room_created" [JStr "42"];
             mkEmit "c2" "room_joined" [JStr "42"]]) ∧
    on_relay "c1" (WebrtcOffer (JObj [("roomId", JStr "42"); ("sdp", JStr "o")]))
      st2 = Done () st2 out1 ∧ recipients out1 = ["c2"] ∧
    on_relay "c2" (WebrtcOffer (JObj [("roomId", JStr "42"); ("sdp", JStr "o")]))
      st2 = Done () st2 out2 ∧ recipients out2 = ["c1"].
Proof.
  apply (paired_relay (state_after [InConnect "c1"; InConnect "c2"]) "42"
           "c1" "c2"
           (WebrtcOffer (JObj [("roomId", JStr "42"); ("sdp", JStr "o")]))).
  - vm_compute. reflexivity.
  - discriminate.
  - discriminate.
  - discriminate.
  - vm_compute. intros Hin. apply elem_of_cons in Hin as [[=] | Hin].
    apply not_elem_of_nil in Hin. destruct Hin.
  - vm_compute. intros Hin. apply elem_of_cons in Hin as [[=] | Hin].
    apply not_elem_of_nil in Hin. destruct Hin.
  - reflexivity.
Defined.

(** X11.  In a state the server can reach, when no other connection has
    joined the room named by the sender's identifier, a relay to the room
    a string names goes to the occupants of that room other than the
    sender, each once and in the order in which they joined; with two
    occupants, the sender and one other, it goes to that other one and to
    nobody else. *)
Theorem relay_recipients st s k r :
  reachable st → relay_room k = Some (JStr r) →
  (∀ c, c ∈ occupants st s → c = s) →
  ∃ out,
    on_relay s k st = Done () st out ∧
    recipients out = set_delete s (occupants st r) ∧
    (∀ c, c ∈ recipients out ↔ c ∈ occupants st r ∧ c ≠ s) ∧
    (∀ b, b ≠ s → occupants st r ≡ₚ [s; b] → recipients out = [b]).
Proof.
  intros Hst Hroom Hprivate. pose proof (reachable_table_ok st Hst) as Hok.
  destruct (on_relay_eq s k st (JStr r) Hroom eq_refl) as (payload & Hrun & _).
  eexists. split; [exact Hrun |]. rewrite recipients_map.
  rewrite broadcast_targets_str_NoDup by (by apply table_ok_members).
  assert (filter (λ c, ¬ left_out st s c) (occupants st r) =
          set_delete s (occupants st r)) as ->.
  { apply filter_agree. intros c _. unfold left_out. split.
    - intros Hn ->. apply Hn. by left.
    - intros Hn [? | ?%Hprivate]; done. }
  split_and!.
  - done.
  - intros c. rewrite elem_of_set_delete. tauto.
  - intros b Hb Hperm. by apply set_delete_pair.
Qed.

Lemma relay_recipients_witness :
  ∃ out,
    on_relay "c2" (WebrtcOffer (JObj [("roomId", JStr "42"); ("sdp", JStr "v=0")]))
      (state_after scenario) = Done () (state_after scenario) out ∧
    recipients out = ["c1"].
Proof.
  destruct (relay_recipients (state_after scenario) "c2"
              (WebrtcOffer (JObj [("roomId", JStr "42"); ("sdp", JStr "v=0")]))
              "42")
    as (out & Hrun & _ & _ & Hpair).
  - apply reachable_state_after.
  - reflexivity.
  - intros c. vm_compute. intros Hin.
    apply elem_of_cons in Hin as [-> | Hin]; [reflexivity |].
    apply not_elem_of_nil in Hin. destruct Hin.
  - exists out. split; [exact Hrun |].
    apply Hpair; [discriminate |]. vm_compute. apply perm_swap.
Defined.

(** ** Joins with an array *)

Lemma members_add_room_mono id k a k' x :
  x ∈ members a k' → x ∈ members (add_room id k a) k'.
Proof.
  intros Hx. rewrite members_add_room. case_decide as Hk; [| done].
  subst k'. apply elem_of_set_add. by right.
Qed.

Lemma members_foldl_add_room id keys : ∀ a,
  (∀ k x, x ∈ members a k →
          x ∈ members (foldl (λ acc room, add_room id room acc) a keys) k) ∧
  (∀ k, k ∈ keys →
        id ∈ members (foldl (λ acc room, add_room id room acc) a keys) k).
Proof.
  induction keys as [| k keys IH]; intros a; simpl.
  - split; [done | by intros k ?%not_elem_of_nil].
  - destruct (IH (add_room id k a)) as [Hmono Hin]. split.
    + intros k' x Hx. by apply Hmono, members_add_room_mono.
    + intros k' [-> | Hk']%elem_of_cons; [| by apply Hin].
      apply Hmono. rewrite members_add_room, decide_True by done.
      apply elem_of_set_add. by left.
Qed.

Lemma alloc_keys_elem vs : ∀ next v k,
  v ∈ vs → key_of v = Some k → k ∈ (alloc_keys vs next).1.
Proof.
  induction vs as [| x vs IH]; intros next v k Hv Hk.
  - by apply not_elem_of_nil in Hv.
  - simpl. apply elem_of_cons in Hv as [-> | Hv].
    + rewrite Hk. destruct (alloc_keys vs next). simpl. left.
    + destruct (key_of x).
      * specialize (IH next v k Hv Hk). destruct (alloc_keys vs next).
        simpl in *. by right.
      * specialize (IH (S next) v k Hv Hk). destruct (alloc_keys vs (S next)).
        simpl in *. by right.
Qed.

(** X12.  A join request whose room identifier is an array is never
    turned away: the lookup of the array finds no room, the answer is
    [room_created] with the array as it came, and the requester is
    entered in every room the array names, however many occupants the
    room has, nobody being taken out of any room. *)
Theorem join_with_array st c items :
  str_throws (JArr items) = false →
  ∃ st',
    on_join c (JArr items) st =
      Done () st' [mkEmit c "room_created" [wire (JArr items)]] ∧
    (∀ v k, v ∈ items → key_of v = Some k → c ∈ members st' k) ∧
    (∀ k x, x ∈ members st k → x ∈ members st' k).
Proof.
  intros Hstr. exists (joined c (JArr items) st). split_and!.
  - by rewrite on_join_eq, Hstr.
  - intros v k Hv Hk. unfold joined. simpl.
    pose proof (alloc_keys_elem items (objects st) v k Hv Hk) as Hin.
    destruct (alloc_keys items (objects st)) as [keys next]. simpl in Hin.
    unfold addAll. by apply members_foldl_add_room.
  - intros k x Hx. unfold joined. simpl.
    destruct (alloc_keys items (objects st)) as [keys next].
    unfold addAll. apply members_foldl_add_room.
    by rewrite members_ensure_sid.
Qed.

Lemma join_with_array_witness :
  ∃ st',
    on_join "c3" (JArr [JStr "42"; JStr "7"]) (state_after scenario) =
      Done () st' [mkEmit "c3" "room_created" [JArr [JStr "42"; JStr "7"]]] ∧
    "c3" ∈ members st' (KStr "42") ∧ "c3" ∈ members st' (KStr "7") ∧
    "c1" ∈ members st' (KStr "42").
Proof.
  destruct (join_with_array (state_after scenario) "c3" [JStr "42"; JStr "7"])
    as (st' & Hrun & Hin & Hkeep); [reflexivity |].
  exists st'. split_and!.
  - exact Hrun.
  - apply (Hin (JStr "42")); [left | reflexivity].
  - apply (Hin (JStr "7")); [right; left | reflexivity].
  - apply Hkeep. vm_compute. left.
Defined.
